(** * Inverse operation invocation (src/pj_inv.c)

    A shallow embedding of [pj_inv_prepare], [pj_inv_finalize] and the three
    entry points [pj_inv], [pj_inv3d] and [pj_inv4d].

    - A C [double] is a primitive binary64 [float]; [==], [<] and [>] are
      [PrimFloat.eqb] and [PrimFloat.ltb] (with [a > b] written [b <? a]).
    - The union [PJ_COORD] is a record of its four slots [v[0..3]]; the
      views [xy]/[lp], [xyz]/[lpz] read and write a prefix of the slots.
    - Effects are explicit: a computation returns its value together with
      the list of events it caused, in order.  An event is a call of
      [proj_errno_set], of [proj_trans] on one of the descriptor's
      sub-operations, of [proj_geocentric_latitude], or of one of the
      descriptor's own transform functions; calls are logged with their
      argument and their result.  A sub-operation is a function of the
      coordinate: the error codes it may record on its own descriptor are
      not tracked.
    - What lives outside pj_inv.c ([proj_trans], [adjlon],
      [proj_geocentric_latitude]) is a field of the class [Externals]. *)

From Stdlib Require Import Floats ZArith List Bool.
Import ListNotations.
Local Open Scope float_scope.

(** ** Constants and enumerations taken from the headers *)

(** [HUGE_VAL] of <math.h>: positive infinity on an IEEE-754 platform. *)
Definition HUGE_VAL : float := infinity.

(** Modelled from the spec: [M_HALFPI] (projects.h, not in src/) is the 90
    degrees of the range check, in radians: the double nearest to pi/2. *)
Definition M_HALFPI : float := 0x1.921fb54442d18p+0.

(** Modelled from the spec: [M_PI] (not in src/), the double nearest to pi;
    only used to state the range (-pi, pi] of a normalized longitude. *)
Definition M_PI : float := 0x1.921fb54442d18p+1.

(** Modelled from the spec: [PJ_EPS_LAT] (projects.h, not in src/) is the
    small tolerance constant of the latitude check; PROJ has 1e-12, here the
    double nearest to it. *)
Definition PJ_EPS_LAT : float := 0x1.19799812dea11p-40.

(** The error codes passed to [proj_errno_set] in this file. *)
Inductive pj_errno : Type :=
| PJD_ERR_INVALID_X_OR_Y
| PJD_ERR_LAT_OR_LON_EXCEED_LIMIT
| EINVAL.

Inductive pj_io_units : Type :=
| PJ_IO_UNITS_WHATEVER
| PJ_IO_UNITS_CLASSIC
| PJ_IO_UNITS_PROJECTED
| PJ_IO_UNITS_CARTESIAN
| PJ_IO_UNITS_ANGULAR.

Inductive PJ_DIRECTION : Type := PJ_FWD | PJ_IDENT | PJ_INV.

(** ** Coordinates *)

Record PJ_COORD : Type := mkCoord { v0 : float; v1 : float; v2 : float; v3 : float }.

(** [XY] and [LP] are two doubles, [XYZ] and [LPZ] three. *)
Definition XY : Type := float * float.
Definition LP : Type := float * float.
Definition XYZ : Type := float * float * float.
Definition LPZ : Type := float * float * float.

(** Named members of the union: [coo.xyz.x], [coo.lp.lam] and [coo.v[0]] are
    the same slot. *)
Abbreviation xyz_x := v0 (only parsing).
Abbreviation xyz_y := v1 (only parsing).
Abbreviation xyz_z := v2 (only parsing).
Abbreviation lp_lam := v0 (only parsing).
Abbreviation lp_phi := v1 (only parsing).

Definition set_v0 (c : PJ_COORD) (d : float) : PJ_COORD := mkCoord d (v1 c) (v2 c) (v3 c).
Definition set_v1 (c : PJ_COORD) (d : float) : PJ_COORD := mkCoord (v0 c) d (v2 c) (v3 c).
Definition set_v2 (c : PJ_COORD) (d : float) : PJ_COORD := mkCoord (v0 c) (v1 c) d (v3 c).
Definition set_v3 (c : PJ_COORD) (d : float) : PJ_COORD := mkCoord (v0 c) (v1 c) (v2 c) d.

(** Reading a view: [coo.xy], [coo.lp], [coo.xyz], [coo.lpz]. *)
Definition coo_xy (c : PJ_COORD) : XY := (v0 c, v1 c).
Definition coo_lp (c : PJ_COORD) : LP := (v0 c, v1 c).
Definition coo_xyz (c : PJ_COORD) : XYZ := (v0 c, v1 c, v2 c).
Definition coo_lpz (c : PJ_COORD) : LPZ := (v0 c, v1 c, v2 c).

(** Writing a view: [coo.xy = ...] overwrites two slots and keeps the other
    two, [coo.xyz = ...] overwrites three. *)
Definition set_xy (c : PJ_COORD) (p : XY) : PJ_COORD :=
  mkCoord (fst p) (snd p) (v2 c) (v3 c).
Definition set_lp (c : PJ_COORD) (p : LP) : PJ_COORD :=
  mkCoord (fst p) (snd p) (v2 c) (v3 c).
Definition set_xyz (c : PJ_COORD) (p : XYZ) : PJ_COORD :=
  mkCoord (fst (fst p)) (snd (fst p)) (snd p) (v3 c).
Definition set_lpz (c : PJ_COORD) (p : LPZ) : PJ_COORD :=
  mkCoord (fst (fst p)) (snd (fst p)) (snd p) (v3 c).

(** [PJ_COORD coo = {{0,0,0,0}}]. *)
Definition coo_zero : PJ_COORD := mkCoord 0 0 0 0.

(** Modelled from the spec: [proj_coord_error] (not in src/) returns the
    sentinel-marked coordinate, every component being the sentinel. *)
Definition proj_coord_error : PJ_COORD := mkCoord HUGE_VAL HUGE_VAL HUGE_VAL HUGE_VAL.

(** ** The descriptor *)

(** The sub-operation slots of a descriptor on which this file calls
    [proj_trans]. *)
Inductive sub_operation : Type :=
| AXISSWAP | HGRIDSHIFT | VGRIDSHIFT | HELMERT | CART | CART_WGS84.

(** The fields of [PJ] read by pj_inv.c.  A nullable pointer is an [option];
    the [int] flags are only ever tested against 0 and are [bool]s.  The
    transform functions take the descriptor as their second argument in C;
    here they are closed over it. *)
Record PJ (sub : Type) : Type := mkPJ {
  left : pj_io_units;              (* OUTPUT_UNITS *)
  right : pj_io_units;             (* INPUT_UNITS *)
  helmert : option sub;
  axisswap : option sub;
  cart : option sub;
  cart_wgs84 : option sub;
  hgridshift : option sub;
  vgridshift : option sub;
  from_greenwich : float;
  lam0 : float;
  to_meter : float;
  vto_meter : float;
  x0 : float;
  y0 : float;
  z0 : float;
  ra : float;
  geoc : bool;
  over : bool;
  is_geocent : bool;
  skip_inv_prepare : bool;
  skip_inv_finalize : bool;
  inv : option (XY -> LP);
  inv3d : option (XYZ -> LPZ);
  inv4d : option (PJ_COORD -> PJ_COORD)
}.

Arguments left {sub} _.
Arguments right {sub} _.
Arguments helmert {sub} _.
Arguments axisswap {sub} _.
Arguments cart {sub} _.
Arguments cart_wgs84 {sub} _.
Arguments hgridshift {sub} _.
Arguments vgridshift {sub} _.
Arguments from_greenwich {sub} _.
Arguments lam0 {sub} _.
Arguments to_meter {sub} _.
Arguments vto_meter {sub} _.
Arguments x0 {sub} _.
Arguments y0 {sub} _.
Arguments z0 {sub} _.
Arguments ra {sub} _.
Arguments geoc {sub} _.
Arguments over {sub} _.
Arguments is_geocent {sub} _.
Arguments skip_inv_prepare {sub} _.
Arguments skip_inv_finalize {sub} _.
Arguments inv {sub} _.
Arguments inv3d {sub} _.
Arguments inv4d {sub} _.

(** The collaborators of pj_inv.c that are defined in other files. *)
Class Externals : Type := {
  (** the type behind the [PJ *] of a sub-operation *)
  PJ_sub : Type;
  (** [proj_trans (Q, direction, coo)], [Q] possibly null *)
  proj_trans : option PJ_sub -> PJ_DIRECTION -> PJ_COORD -> PJ_COORD;
  (** [adjlon (lon)] *)
  adjlon : float -> float;
  (** [proj_geocentric_latitude (P, direction, coo)] *)
  proj_geocentric_latitude : PJ PJ_sub -> PJ_DIRECTION -> PJ_COORD -> PJ_COORD
}.

(** ** Events and the computation type *)

Inductive event : Type :=
| ev_errno (e : pj_errno)
| ev_trans (op : sub_operation) (dir : PJ_DIRECTION) (arg res : PJ_COORD)
| ev_geocentric (dir : PJ_DIRECTION) (arg res : PJ_COORD)
| ev_inv (arg : XY) (res : LP)
| ev_inv3d (arg : XYZ) (res : LPZ)
| ev_inv4d (arg res : PJ_COORD).

Definition M (A : Type) : Type := (A * list event)%type.

Definition ret {A : Type} (a : A) : M A := (a, []).

Definition bind {A B : Type} (m : M A) (k : A -> M B) : M B :=
  (fst (k (fst m)), snd m ++ snd (k (fst m))).

Definition value {A : Type} (m : M A) : A := fst m.
Definition trace {A : Type} (m : M A) : list event := snd m.

Declare Scope pj_scope.
Delimit Scope pj_scope with pj.
Notation "x <- c ;; k" := (bind c (fun x => k))
  (at level 100, c at next level, right associativity) : pj_scope.
Local Open Scope pj_scope.

(** [proj_errno_set (P, e)]: the last error code is recorded. *)
Definition proj_errno_set (e : pj_errno) : M unit := (tt, [ev_errno e]).

(** The error code left behind by a run: the last one set, if any. *)
Definition proj_errno (t : list event) : option pj_errno :=
  fold_left (fun acc ev => match ev with ev_errno e => Some e | _ => acc end) t None.

Definition is_core_event (ev : event) : bool :=
  match ev with
  | ev_inv _ _ | ev_inv3d _ _ | ev_inv4d _ _ => true
  | _ => false
  end.

Definition is_errno_event (ev : event) : bool :=
  match ev with ev_errno _ => true | _ => false end.

(** The event that ends a horizontal datum correction: the forward grid
    shift, or the last step of the Helmert chain. *)
Definition is_horizontal_result (ev : event) : bool :=
  match ev with
  | ev_trans HGRIDSHIFT _ _ _ | ev_trans CART_WGS84 _ _ _ => true
  | _ => false
  end.

(** A run either has no horizontal datum correction, or it has exactly one,
    and if that one produced a sentinel longitude then nothing was done
    after it and its result is the result of the run. *)
Definition stops_on_sentinel (m : M PJ_COORD) : Prop :=
  existsb is_horizontal_result (trace m) = false \/
  exists t1 e t2,
    trace m = t1 ++ e :: t2 /\
    existsb is_horizontal_result t1 = false /\
    existsb is_horizontal_result t2 = false /\
    forall op dir arg res,
      e = ev_trans op dir arg res -> (lp_lam res =? HUGE_VAL) = true ->
      t2 = [] /\ value m = res.

(** The event of a vertical grid shift. *)
Definition is_vertical_shift (ev : event) : bool :=
  match ev with
  | ev_trans VGRIDSHIFT _ _ _ => true
  | _ => false
  end.

(** A run either has no vertical grid shift, or it ends on one, applied in
    the inverse direction to a coordinate whose longitude is not the
    sentinel, and returns its result. *)
Definition ends_with_vertical_shift (m : M PJ_COORD) : Prop :=
  existsb is_vertical_shift (trace m) = false \/
  exists t1 arg,
    trace m = t1 ++ [ev_trans VGRIDSHIFT PJ_INV arg (value m)] /\
    existsb is_vertical_shift t1 = false /\
    (lp_lam arg =? HUGE_VAL) = false.

Definition is_some {A : Type} (o : option A) : bool :=
  match o with Some _ => true | None => false end.

Section Pipeline.
Context {E : Externals}.

Abbreviation descriptor := (PJ PJ_sub).

(** [coo = proj_trans (P->slot, dir, coo)], logged under the slot's name. *)
Definition trans (op : sub_operation) (Q : option PJ_sub) (dir : PJ_DIRECTION)
    (coo : PJ_COORD) : M PJ_COORD :=
  (proj_trans Q dir coo, [ev_trans op dir coo (proj_trans Q dir coo)]).

(** [coo = proj_geocentric_latitude (P, dir, coo)]. *)
Definition geocentric_latitude (P : descriptor) (dir : PJ_DIRECTION)
    (coo : PJ_COORD) : M PJ_COORD :=
  (proj_geocentric_latitude P dir coo,
   [ev_geocentric dir coo (proj_geocentric_latitude P dir coo)]).

(** *** pj_inv_prepare *)

(** Lines 45-46: a sentinel in [v[2]] or [v[3]] becomes 0.0 when the
    descriptor has a Helmert sub-operation. *)
Definition helmert_defaults (P : descriptor) (coo : PJ_COORD) : PJ_COORD :=
  let coo := if (HUGE_VAL =? v2 coo) && is_some (helmert P) then set_v2 coo 0 else coo in
  let coo := if (HUGE_VAL =? v3 coo) && is_some (helmert P) then set_v3 coo 0 else coo in
  coo.

(** Lines 48-49. *)
Definition apply_axisswap (P : descriptor) (coo : PJ_COORD) : M PJ_COORD :=
  if is_some (axisswap P) then trans AXISSWAP (axisswap P) PJ_INV coo else ret coo.

(** Lines 56-57: the over-range test on an angular input. *)
Definition lat_or_lon_exceed_limit (coo : PJ_COORD) : bool :=
  let t := (if lp_phi coo <? 0 then - lp_phi coo else lp_phi coo) - M_HALFPI in
  (PJ_EPS_LAT <? t) || (10 <? lp_lam coo) || (lp_lam coo <? -10).

(** Lines 63-66. *)
Definition clamp_latitude (coo : PJ_COORD) : PJ_COORD :=
  let coo := if M_HALFPI <? lp_phi coo then set_v1 coo M_HALFPI else coo in
  let coo := if lp_phi coo <? - M_HALFPI then set_v1 coo (- M_HALFPI) else coo in
  coo.

(** Lines 73-77: distance from the central meridian, then [adjlon] unless
    [P->over]. *)
Definition central_meridian_distance (P : descriptor) (coo : PJ_COORD) : PJ_COORD :=
  let coo := set_v0 coo ((lp_lam coo + from_greenwich P) - lam0 P) in
  if negb (over P) then set_v0 coo (adjlon (lp_lam coo)) else coo.

(** Lines 79-85 and again 155-161: the horizontal datum correction. *)
Definition horizontal_datum_shift (P : descriptor) (coo : PJ_COORD) : M PJ_COORD :=
  if is_some (hgridshift P) then trans HGRIDSHIFT (hgridshift P) PJ_FWD coo
  else if is_some (helmert P) then
    coo <- trans CART (cart P) PJ_FWD coo ;;
    coo <- trans HELMERT (helmert P) PJ_FWD coo ;;
    trans CART_WGS84 (cart_wgs84 P) PJ_INV coo
  else ret coo.

(** Lines 79-90: horizontal correction, sentinel check, vertical shift. *)
Definition prepare_datum (P : descriptor) (coo : PJ_COORD) : M PJ_COORD :=
  coo <- horizontal_datum_shift P coo ;;
  if lp_lam coo =? HUGE_VAL then ret coo
  else if is_some (vgridshift P) then trans VGRIDSHIFT (vgridshift P) PJ_INV coo
  else ret coo.

(** Lines 68-90: what happens to a range-checked, clamped angular input. *)
Definition prepare_geographic (P : descriptor) (coo : PJ_COORD) : M PJ_COORD :=
  coo <- (if geoc P then geocentric_latitude P PJ_INV coo else ret coo) ;;
  prepare_datum P (central_meridian_distance P coo).

(** Lines 52-91: the angular branch. *)
Definition prepare_angular (P : descriptor) (coo : PJ_COORD) : M PJ_COORD :=
  if lat_or_lon_exceed_limit coo then
    _ <- proj_errno_set PJD_ERR_LAT_OR_LON_EXCEED_LIMIT ;;
    ret proj_coord_error
  else prepare_geographic P (clamp_latitude coo).

(** Lines 99-107: cartesian input. *)
Definition prepare_cartesian (P : descriptor) (coo : PJ_COORD) : M PJ_COORD :=
  let coo := set_v0 coo (to_meter P * xyz_x coo - x0 P) in
  let coo := set_v1 coo (to_meter P * xyz_y coo - y0 P) in
  let coo := set_v2 coo (to_meter P * xyz_z coo - z0 P) in
  if is_geocent P then trans CART (cart P) PJ_INV coo else ret coo.

(** Lines 109-123: projected and classic input. *)
Definition prepare_projected (P : descriptor) (coo : PJ_COORD) : M PJ_COORD :=
  let coo := set_v0 coo (to_meter P * xyz_x coo - x0 P) in
  let coo := set_v1 coo (to_meter P * xyz_y coo - y0 P) in
  let coo := set_v2 coo (vto_meter P * xyz_z coo - z0 P) in
  match right P with
  | PJ_IO_UNITS_PROJECTED => ret coo
  | _ =>
      let coo := set_v0 coo (xyz_x coo * ra P) in
      let coo := set_v1 coo (xyz_y coo * ra P) in
      ret coo
  end.

(** Lines 51-130: the branch on [INPUT_UNITS]. *)
Definition prepare_units (P : descriptor) (coo : PJ_COORD) : M PJ_COORD :=
  match right P with
  | PJ_IO_UNITS_ANGULAR => prepare_angular P coo
  | PJ_IO_UNITS_WHATEVER => ret coo
  | PJ_IO_UNITS_CARTESIAN => prepare_cartesian P coo
  | PJ_IO_UNITS_PROJECTED | PJ_IO_UNITS_CLASSIC => prepare_projected P coo
  end.

Definition pj_inv_prepare (P : descriptor) (coo : PJ_COORD) : M PJ_COORD :=
  if xyz_x coo =? HUGE_VAL then
    _ <- proj_errno_set PJD_ERR_INVALID_X_OR_Y ;;
    ret proj_coord_error
  else
    coo <- apply_axisswap P (helmert_defaults P coo) ;;
    prepare_units P coo.

(** *** pj_inv_finalize *)

(** Lines 143-164: the central meridian is added back and the datum
    corrections are applied.  The boolean is [true] for one of the two early
    [return coo] and [false] for falling through to line 166. *)
Definition finalize_geographic (P : descriptor) (coo : PJ_COORD) : M (PJ_COORD * bool) :=
  let coo := set_v0 coo (lp_lam coo + from_greenwich P + lam0 P) in
  let coo := if negb (over P) then set_v0 coo (adjlon (lp_lam coo)) else coo in
  coo <- (if is_some (vgridshift P) then trans VGRIDSHIFT (vgridshift P) PJ_INV coo
          else ret coo) ;;
  if lp_lam coo =? HUGE_VAL then ret (coo, true)
  else
    coo <- horizontal_datum_shift P coo ;;
    if lp_lam coo =? HUGE_VAL then ret (coo, true)
    else ret (coo, false).

(** Lines 166-168. *)
Definition finalize_geocentric (P : descriptor) (coo : PJ_COORD) : M PJ_COORD :=
  if geoc P then geocentric_latitude P PJ_FWD coo else ret coo.

Definition pj_inv_finalize (P : descriptor) (coo : PJ_COORD) : M PJ_COORD :=
  if xyz_x coo =? HUGE_VAL then
    _ <- proj_errno_set PJD_ERR_INVALID_X_OR_Y ;;
    ret proj_coord_error
  else
    match left P with
    | PJ_IO_UNITS_ANGULAR =>
        match right P with
        | PJ_IO_UNITS_ANGULAR => finalize_geocentric P coo
        | _ =>
            r <- finalize_geographic P coo ;;
            if snd r then ret (fst r) else finalize_geocentric P (fst r)
        end
    | _ => ret coo
    end.

(** *** The entry points *)

(** [coo.lp = P->inv (coo.xy, P)] and its 3D and 4D siblings. *)
Definition call_inv (f : XY -> LP) (coo : PJ_COORD) : M PJ_COORD :=
  (set_lp coo (f (coo_xy coo)), [ev_inv (coo_xy coo) (f (coo_xy coo))]).
Definition call_inv3d (f : XYZ -> LPZ) (coo : PJ_COORD) : M PJ_COORD :=
  (set_lpz coo (f (coo_xyz coo)), [ev_inv3d (coo_xyz coo) (f (coo_xyz coo))]).
Definition call_inv4d (f : PJ_COORD -> PJ_COORD) (coo : PJ_COORD) : M PJ_COORD :=
  (f coo, [ev_inv4d coo (f coo)]).

(** The optional Prepare of lines 180-181, 210-211 and 237-238. *)
Definition entry_prepare (P : descriptor) (coo : PJ_COORD) : M PJ_COORD :=
  if negb (skip_inv_prepare P) then pj_inv_prepare P coo else ret coo.

(** The optional Finalize of lines 199-200, 229-230 and 256-257. *)
Definition entry_finalize (P : descriptor) (coo : PJ_COORD) : M PJ_COORD :=
  if negb (skip_inv_finalize P) then pj_inv_finalize P coo else ret coo.

(** Lines 186-195: the transformer chosen by [pj_inv]; [None] is the final
    [else], which sets [EINVAL]. *)
Definition dispatch_inv (P : descriptor) (coo : PJ_COORD) : M (option PJ_COORD) :=
  match inv P with
  | Some f => coo <- call_inv f coo ;; ret (Some coo)
  | None =>
  match inv3d P with
  | Some f => coo <- call_inv3d f coo ;; ret (Some coo)
  | None =>
  match inv4d P with
  | Some f => coo <- call_inv4d f coo ;; ret (Some coo)
  | None => _ <- proj_errno_set EINVAL ;; ret None
  end end end.

(** Lines 216-225: the transformer chosen by [pj_inv3d]. *)
Definition dispatch_inv3d (P : descriptor) (coo : PJ_COORD) : M (option PJ_COORD) :=
  match inv3d P with
  | Some f => coo <- call_inv3d f coo ;; ret (Some coo)
  | None =>
  match inv4d P with
  | Some f => coo <- call_inv4d f coo ;; ret (Some coo)
  | None =>
  match inv P with
  | Some f => coo <- call_inv f coo ;; ret (Some coo)
  | None => _ <- proj_errno_set EINVAL ;; ret None
  end end end.

(** Lines 243-252: the transformer chosen by [pj_inv4d]. *)
Definition dispatch_inv4d (P : descriptor) (coo : PJ_COORD) : M (option PJ_COORD) :=
  match inv4d P with
  | Some f => coo <- call_inv4d f coo ;; ret (Some coo)
  | None =>
  match inv3d P with
  | Some f => coo <- call_inv3d f coo ;; ret (Some coo)
  | None =>
  match inv P with
  | Some f => coo <- call_inv f coo ;; ret (Some coo)
  | None => _ <- proj_errno_set EINVAL ;; ret None
  end end end.

(** The body shared by the three entry points, from the check that follows
    Prepare to the end; [dispatch] is the entry point's own chain. *)
Definition entry_body (dispatch : descriptor -> PJ_COORD -> M (option PJ_COORD))
    (P : descriptor) (coo : PJ_COORD) : M PJ_COORD :=
  coo <- entry_prepare P coo ;;
  if HUGE_VAL =? v0 coo then ret proj_coord_error
  else
    r <- dispatch P coo ;;
    match r with
    | None => ret proj_coord_error
    | Some coo =>
        if HUGE_VAL =? v0 coo then ret proj_coord_error
        else entry_finalize P coo
    end.

Definition pj_inv (xy : XY) (P : descriptor) : M LP :=
  coo <- entry_body dispatch_inv P (set_xy coo_zero xy) ;;
  ret (coo_lp coo).

Definition pj_inv3d (xyz : XYZ) (P : descriptor) : M LPZ :=
  coo <- entry_body dispatch_inv3d P (set_xyz coo_zero xyz) ;;
  ret (coo_lpz coo).

Definition pj_inv4d (coo : PJ_COORD) (P : descriptor) : M PJ_COORD :=
  entry_body dispatch_inv4d P coo.

End Pipeline.

(** ** What a stage may do on a given descriptor *)

Definition is_angular (u : pj_io_units) : bool :=
  match u with PJ_IO_UNITS_ANGULAR => true | _ => false end.

Definition is_cartesian (u : pj_io_units) : bool :=
  match u with PJ_IO_UNITS_CARTESIAN => true | _ => false end.

(** The events Prepare can cause, with the direction of each call and the
    configuration under which the source makes it. *)
Definition prepare_event_allowed {sub : Type} (P : PJ sub) (ev : event) : bool :=
  match ev with
  | ev_errno PJD_ERR_INVALID_X_OR_Y => true
  | ev_errno PJD_ERR_LAT_OR_LON_EXCEED_LIMIT => is_angular (right P)
  | ev_trans AXISSWAP PJ_INV _ _ => is_some (axisswap P)
  | ev_geocentric PJ_INV _ _ => is_angular (right P) && geoc P
  | ev_trans HGRIDSHIFT PJ_FWD _ _ => is_angular (right P) && is_some (hgridshift P)
  | ev_trans CART PJ_FWD _ _
  | ev_trans HELMERT PJ_FWD _ _
  | ev_trans CART_WGS84 PJ_INV _ _ =>
      is_angular (right P) && is_some (helmert P) && negb (is_some (hgridshift P))
  | ev_trans VGRIDSHIFT PJ_INV _ _ => is_angular (right P) && is_some (vgridshift P)
  | ev_trans CART PJ_INV _ _ => is_cartesian (right P) && is_geocent P
  | _ => false
  end.

(** The same for Finalize. *)
Definition finalize_event_allowed {sub : Type} (P : PJ sub) (ev : event) : bool :=
  match ev with
  | ev_errno PJD_ERR_INVALID_X_OR_Y => true
  | ev_trans VGRIDSHIFT PJ_INV _ _ =>
      is_angular (left P) && negb (is_angular (right P)) && is_some (vgridshift P)
  | ev_trans HGRIDSHIFT PJ_FWD _ _ =>
      is_angular (left P) && negb (is_angular (right P)) && is_some (hgridshift P)
  | ev_trans CART PJ_FWD _ _
  | ev_trans HELMERT PJ_FWD _ _
  | ev_trans CART_WGS84 PJ_INV _ _ =>
      is_angular (left P) && negb (is_angular (right P))
      && is_some (helmert P) && negb (is_some (hgridshift P))
  | ev_geocentric PJ_FWD _ _ => is_angular (left P) && geoc P
  | _ => false
  end.

(** ** The contract in the words of the specification *)

Inductive dimensionality : Type := D2 | D3 | D4.

(** The fixed order in which a call of a given dimensionality looks for a
    transform implementation. *)
Definition fallback_order (d : dimensionality) : list dimensionality :=
  match d with
  | D2 => [D2; D3; D4]
  | D3 => [D3; D4; D2]
  | D4 => [D4; D3; D2]
  end.

(** The half-open interval (-pi, pi] of a normalized longitude. *)
Definition in_minus_pi_pi (lon : float) : bool :=
  (- M_PI <? lon) && (lon <=? M_PI).

(** The range check of step 4a as the specification writes it:
    | |latitude| - 90 degrees | > epsilon, or |longitude| > 10. *)
Definition limit_check_as_specified (coo : PJ_COORD) : bool :=
  (PJ_EPS_LAT <? abs (abs (lp_phi coo) - M_HALFPI)) || (10 <? abs (lp_lam coo)).

(** The same without the outer absolute value:
    |latitude| - 90 degrees > epsilon, or |longitude| > 10. *)
Definition exceeds_limit (coo : PJ_COORD) : bool :=
  (PJ_EPS_LAT <? abs (lp_phi coo) - M_HALFPI) || (10 <? abs (lp_lam coo)).

Section Contract.
Context {E : Externals}.

Abbreviation descriptor := (PJ PJ_sub).

(** The descriptor's implementation at one dimensionality, if it has one,
    as what its call makes of the full coordinate and the event it leaves:
    a 2D implementation is given the first two components and its result
    replaces them, a 3D one the first three, a 4D one all four. *)
Definition implementation (P : descriptor) (d : dimensionality)
    : option (PJ_COORD -> M PJ_COORD) :=
  match d with
  | D2 =>
      option_map
        (fun (f : XY -> LP) (coo : PJ_COORD) =>
           (mkCoord (fst (f (v0 coo, v1 coo))) (snd (f (v0 coo, v1 coo)))
                    (v2 coo) (v3 coo),
            [ev_inv (v0 coo, v1 coo) (f (v0 coo, v1 coo))]))
        (inv P)
  | D3 =>
      option_map
        (fun (f : XYZ -> LPZ) (coo : PJ_COORD) =>
           (mkCoord (fst (fst (f (v0 coo, v1 coo, v2 coo))))
                    (snd (fst (f (v0 coo, v1 coo, v2 coo))))
                    (snd (f (v0 coo, v1 coo, v2 coo)))
                    (v3 coo),
            [ev_inv3d (v0 coo, v1 coo, v2 coo) (f (v0 coo, v1 coo, v2 coo))]))
        (inv3d P)
  | D4 =>
      option_map
        (fun (f : PJ_COORD -> PJ_COORD) (coo : PJ_COORD) =>
           (f coo, [ev_inv4d coo (f coo)]))
        (inv4d P)
  end.

Fixpoint first_implementation (P : descriptor) (order : list dimensionality)
    : option (PJ_COORD -> M PJ_COORD) :=
  match order with
  | [] => None
  | d :: rest =>
      match implementation P d with
      | Some f => Some f
      | None => first_implementation P rest
      end
  end.

(** Dispatch as the specification words it: the first implementation in the
    fallback order, or [EINVAL] (NoTransformAvailable) when there is none. *)
Definition dispatch_spec (P : descriptor) (d : dimensionality) (coo : PJ_COORD)
    : M (option PJ_COORD) :=
  match first_implementation P (fallback_order d) with
  | Some f => (Some (fst (f coo)), snd (f coo))
  | None => (None, [ev_errno EINVAL])
  end.

(** Step 2 of Prepare: a third or fourth component that is the sentinel is
    replaced by zero when the descriptor has a Helmert sub-operation, and
    only then. *)
Definition substitute_zero (has_helmert : bool) (d : float) : float :=
  if has_helmert then (if HUGE_VAL =? d then 0 else d) else d.

(** A stage as a sequence of steps, each of which either hands a coordinate
    to the next step or ends the stage with the coordinate it returns, and
    leaves the events of the calls it made. *)
Inductive outcome : Type :=
| Continue (coo : PJ_COORD)
| Return (coo : PJ_COORD).

Definition step : Type := PJ_COORD -> outcome * list event.

Fixpoint run_steps (steps : list step) (coo : PJ_COORD) : M PJ_COORD :=
  match steps with
  | [] => (coo, [])
  | s :: rest =>
      match fst (s coo) with
      | Continue c => (fst (run_steps rest c), snd (s coo) ++ snd (run_steps rest c))
      | Return c => (c, snd (s coo))
      end
  end.

(** The steps of Finalize for angular output from non-angular input, as the
    specification lists them (4.3, items 1 and 2), each written out on the
    collaborators [adjlon], [proj_trans] and [proj_geocentric_latitude]. *)
Definition add_central_meridian (P : descriptor) : step :=
  fun coo =>
    (Continue (mkCoord (v0 coo + from_greenwich P + lam0 P) (v1 coo) (v2 coo) (v3 coo)),
     []).

Definition normalize_longitude (P : descriptor) : step :=
  fun coo =>
    if over P then (Continue coo, [])
    else (Continue (mkCoord (adjlon (v0 coo)) (v1 coo) (v2 coo) (v3 coo)), []).

Definition vertical_shift_inverse (P : descriptor) : step :=
  fun coo =>
    match vgridshift P with
    | Some _ =>
        (Continue (proj_trans (vgridshift P) PJ_INV coo),
         [ev_trans VGRIDSHIFT PJ_INV coo (proj_trans (vgridshift P) PJ_INV coo)])
    | None => (Continue coo, [])
    end.

Definition check_sentinel : step :=
  fun coo => if v0 coo =? HUGE_VAL then (Return coo, []) else (Continue coo, []).

Definition horizontal_correction (P : descriptor) : step :=
  fun coo =>
    match hgridshift P, helmert P with
    | Some _, _ =>
        (Continue (proj_trans (hgridshift P) PJ_FWD coo),
         [ev_trans HGRIDSHIFT PJ_FWD coo (proj_trans (hgridshift P) PJ_FWD coo)])
    | None, Some _ =>
        let r1 := proj_trans (cart P) PJ_FWD coo in
        let r2 := proj_trans (helmert P) PJ_FWD r1 in
        let r3 := proj_trans (cart_wgs84 P) PJ_INV r2 in
        (Continue r3,
         [ev_trans CART PJ_FWD coo r1;
          ev_trans HELMERT PJ_FWD r1 r2;
          ev_trans CART_WGS84 PJ_INV r2 r3])
    | None, None => (Continue coo, [])
    end.

Definition back_to_geocentric (P : descriptor) : step :=
  fun coo =>
    if geoc P
    then (Continue (proj_geocentric_latitude P PJ_FWD coo),
          [ev_geocentric PJ_FWD coo (proj_geocentric_latitude P PJ_FWD coo)])
    else (Continue coo, []).

Definition finalize_steps (P : descriptor) : list step :=
  [ add_central_meridian P;
    normalize_longitude P;
    vertical_shift_inverse P;
    check_sentinel;
    horizontal_correction P;
    check_sentinel;
    back_to_geocentric P ].

(** Modelled from the spec: [adjlon] (not in src/) normalizes a finite
    longitude into (-pi, pi]. *)
Definition adjlon_normalizes : Prop :=
  forall lon : float, is_finite lon = true -> in_minus_pi_pi (adjlon lon) = true.

End Contract.

(** ** A concrete instance

    Sub-operations given by their transfer function, a stand-in for [adjlon]
    that is the identity on (-pi, pi], and a geocentric latitude conversion
    that leaves the coordinate alone; used to run the pipeline on examples. *)

Definition example_sub : Type := PJ_DIRECTION -> PJ_COORD -> PJ_COORD.

Definition example_externals : Externals := {|
  PJ_sub := example_sub;
  proj_trans := fun Q dir coo => match Q with Some f => f dir coo | None => coo end;
  adjlon := fun lon => if in_minus_pi_pi lon then lon else 0;
  proj_geocentric_latitude := fun _ _ coo => coo
|}.

Definition example_descriptor : Type := PJ (@PJ_sub example_externals).

(** A descriptor with unit scales, no offsets and no flags set. *)
Definition example_PJ (l r : pj_io_units)
    (hel axs hgs vgs : option example_sub)
    (i2 : option (XY -> LP)) (i3 : option (XYZ -> LPZ))
    (i4 : option (PJ_COORD -> PJ_COORD)) : example_descriptor :=
  {| left := l; right := r;
     helmert := hel; axisswap := axs; cart := None; cart_wgs84 := None;
     hgridshift := hgs; vgridshift := vgs;
     from_greenwich := 0; lam0 := 0; to_meter := 1; vto_meter := 1;
     x0 := 0; y0 := 0; z0 := 0; ra := 1;
     geoc := false; over := false; is_geocent := false;
     skip_inv_prepare := false; skip_inv_finalize := false;
     inv := i2; inv3d := i3; inv4d := i4 |}.

(** A sub-operation that fails: it answers the error coordinate. *)
Definition failing_sub : example_sub := fun _ _ => proj_coord_error.

(** A sub-operation that swaps the first two components. *)
Definition swap_sub : example_sub :=
  fun _ coo => mkCoord (v1 coo) (v0 coo) (v2 coo) (v3 coo).

(** A 2D transform that halves both components. *)
Definition half_2d : XY -> LP := fun xy => (fst xy / 2, snd xy / 2).

Definition same_4d : PJ_COORD -> PJ_COORD := fun coo => coo.

(** A sub-operation that returns its argument. *)
Definition same_sub : example_sub := fun _ coo => coo.

(** Angular input, a 2D transform, no sub-operation. *)
Definition angular_PJ : example_descriptor :=
  example_PJ PJ_IO_UNITS_PROJECTED PJ_IO_UNITS_ANGULAR
    None None None None (Some half_2d) None None.

(** Angular input with a horizontal grid shift that fails and a vertical
    grid shift. *)
Definition failing_grid_PJ : example_descriptor :=
  example_PJ PJ_IO_UNITS_PROJECTED PJ_IO_UNITS_ANGULAR
    None None (Some failing_sub) (Some same_sub) (Some half_2d) None None.

(** Projected input and angular output, with both grid shifts. *)
Definition geographic_out_PJ : example_descriptor :=
  example_PJ PJ_IO_UNITS_ANGULAR PJ_IO_UNITS_PROJECTED
    None None (Some same_sub) (Some same_sub) (Some half_2d) None None.

(** Classic input with a Helmert sub-operation. *)
Definition classic_helmert_PJ : example_descriptor :=
  example_PJ PJ_IO_UNITS_ANGULAR PJ_IO_UNITS_CLASSIC
    (Some same_sub) None None None (Some half_2d) None None.


(** Pass-through units and no transform at all. *)
Definition no_transform_PJ : example_descriptor :=
  example_PJ PJ_IO_UNITS_WHATEVER PJ_IO_UNITS_WHATEVER
    None None None None None None None.

(** Projected input and output, a 2D transform. *)
Definition projected_PJ : example_descriptor :=
  example_PJ PJ_IO_UNITS_PROJECTED PJ_IO_UNITS_PROJECTED
    None None None None (Some half_2d) None None.

(** Projected input and output behind an axis swap. *)
Definition swapped_PJ : example_descriptor :=
  example_PJ PJ_IO_UNITS_PROJECTED PJ_IO_UNITS_PROJECTED
    None (Some swap_sub) None None (Some half_2d) None None.

(** A sub-operation that adds one to the third component. *)
Definition raise_sub : example_sub := fun _ coo => set_v2 coo (v2 coo + 1).

(** A 2D transform that fails: it answers the sentinel. *)
Definition failing_2d : XY -> LP := fun _ => (HUGE_VAL, HUGE_VAL).

(** Pass-through units and a 4D transform only. *)
Definition only_4d_PJ : example_descriptor :=
  example_PJ PJ_IO_UNITS_WHATEVER PJ_IO_UNITS_WHATEVER
    None None None None None None (Some same_4d).

(** Projected input and output, a 2D transform that fails. *)
Definition failing_transform_PJ : example_descriptor :=
  example_PJ PJ_IO_UNITS_PROJECTED PJ_IO_UNITS_PROJECTED
    None None None None (Some failing_2d) None None.

(** Cartesian input, not geocentric. *)
Definition cartesian_PJ : example_descriptor :=
  example_PJ PJ_IO_UNITS_PROJECTED PJ_IO_UNITS_CARTESIAN
    None None None None (Some half_2d) None None.

(** Angular input with a Helmert sub-operation and nothing else. *)
Definition helmert_PJ : example_descriptor :=
  example_PJ PJ_IO_UNITS_PROJECTED PJ_IO_UNITS_ANGULAR
    (Some raise_sub) None None None (Some half_2d) None None.

(** Angular input with a vertical grid shift. *)
Definition vertical_PJ : example_descriptor :=
  example_PJ PJ_IO_UNITS_PROJECTED PJ_IO_UNITS_ANGULAR
    None None None (Some raise_sub) (Some half_2d) None None.

(** Projected input and angular output, with a vertical grid shift that
    fails and a horizontal one. *)
Definition failing_vertical_PJ : example_descriptor :=
  example_PJ PJ_IO_UNITS_ANGULAR PJ_IO_UNITS_PROJECTED
    None None (Some same_sub) (Some failing_sub) (Some half_2d) None None.

(** * Facts about binary64 comparisons *)

Lemma SFcompare_swap (a b : spec_float) :
  SFcompare b a = option_map CompOpp (SFcompare a b).
Proof.
  destruct a as [sa|sa| |sa ma ea], b as [sb|sb| |sb mb eb]; cbn;
    try reflexivity; try (destruct sa; reflexivity); try (destruct sb; reflexivity);
    try (destruct sa, sb; reflexivity).
  rewrite (Z.compare_antisym ea eb).
  destruct sa, sb; cbn; try reflexivity;
    destruct (ea ?= eb)%Z; cbn; try reflexivity; f_equal.
  - f_equal. symmetry. exact (Pos.compare_cont_antisym ma mb Eq).
  - symmetry. exact (Pos.compare_cont_antisym ma mb Eq).
Qed.

Lemma float_eqb_sym (a b : float) : (a =? b) = (b =? a).
Proof.
  rewrite !FloatAxioms.eqb_spec. unfold SFeqb.
  rewrite (SFcompare_swap (Prim2SF a) (Prim2SF b)).
  now destruct (SFcompare (Prim2SF a) (Prim2SF b)) as [[]|].
Qed.

Lemma leb_not_ltb (a b : float) : (a <=? b) = true -> (b <? a) = false.
Proof.
  rewrite leb_spec, ltb_spec. unfold SFleb, SFltb.
  rewrite (SFcompare_swap (Prim2SF a) (Prim2SF b)).
  destruct (SFcompare (Prim2SF a) (Prim2SF b)) as [[]|]; cbn; congruence.
Qed.

Lemma not_ltb_leb (a b : float) :
  Prim2SF a <> S754_nan -> Prim2SF b <> S754_nan ->
  (a <? b) = false -> (b <=? a) = true.
Proof.
  rewrite leb_spec, ltb_spec. unfold SFleb, SFltb. intros Ha Hb.
  rewrite (SFcompare_swap (Prim2SF a) (Prim2SF b)).
  destruct (Prim2SF a) as [sa|sa| |sa ma ea], (Prim2SF b) as [sb|sb| |sb mb eb];
    try congruence; cbn;
    try (destruct sa; cbn; congruence); try (destruct sb; cbn; congruence);
    try (destruct sa, sb; cbn; congruence).
  destruct sa, sb; cbn; try congruence; destruct (ea ?= eb)%Z; cbn; try congruence.
  - destruct (PosDef.Pos.compare_cont Eq ma mb); cbn; congruence.
  - destruct (PosDef.Pos.compare_cont Eq ma mb); cbn; congruence.
Qed.

(** The conditional of line 56 is [fabs] as far as the subtraction that
    follows can tell (the two differ on the sign of a zero only). *)
Lemma conditional_abs_sub (phi : float) :
  (if phi <? 0 then - phi else phi) - M_HALFPI = abs phi - M_HALFPI.
Proof.
  apply Prim2SF_inj. rewrite !sub_spec. rewrite ltb_spec.
  rewrite abs_spec.
  replace (Prim2SF (if SFltb (Prim2SF phi) (Prim2SF 0) then - phi else phi))
    with (if SFltb (Prim2SF phi) (Prim2SF 0) then SFopp (Prim2SF phi) else Prim2SF phi)
    by (destruct (SFltb _ _); [now rewrite opp_spec | reflexivity]).
  destruct (Prim2SF phi) as [s|s| |s m e]; try reflexivity; destruct s; reflexivity.
Qed.

(** [lam > 10 || lam < -10] is [fabs (lam) > 10]. *)
Lemma abs_gt_10 (lam : float) :
  (10 <? abs lam) = (10 <? lam) || (lam <? -10).
Proof.
  rewrite !ltb_spec, abs_spec.
  change (Prim2SF 10) with (S754_finite false 5629499534213120 (-49)).
  change (Prim2SF (-10)) with (S754_finite true 5629499534213120 (-49)).
  unfold SFltb.
  destruct (Prim2SF lam) as [s|s| |s m e]; cbn [SFabs SFcompare orb];
    try reflexivity; try (destruct s; reflexivity).
  destruct s.
  - rewrite (Z.compare_antisym e (-49)).
    destruct (e ?= -49)%Z; cbn [CompOpp orb]; try reflexivity.
    replace (PosDef.Pos.compare_cont Eq 5629499534213120 m)
      with (CompOpp (PosDef.Pos.compare_cont Eq m 5629499534213120))
      by (exact (Pos.compare_cont_antisym m 5629499534213120 Eq)).
    reflexivity.
  - destruct (-49 ?= e)%Z; try reflexivity.
    destruct (PosDef.Pos.compare_cont Eq 5629499534213120 m); reflexivity.
Qed.

Lemma abs_le_10_not_sentinel (lam : float) :
  (abs lam <=? 10) = true -> (lam =? HUGE_VAL) = false.
Proof.
  rewrite leb_spec, FloatAxioms.eqb_spec, abs_spec.
  change (Prim2SF 10) with (S754_finite false 5629499534213120 (-49)).
  change (Prim2SF HUGE_VAL) with (S754_infinity false).
  unfold SFleb, SFeqb.
  destruct (Prim2SF lam) as [s|s| |s m e]; cbn [SFabs SFcompare];
    try reflexivity; try discriminate; destruct s; try reflexivity; discriminate.
Qed.

Lemma above_pole_not_below (phi : float) :
  (M_HALFPI <? phi) = true -> (phi <? - M_HALFPI) = false.
Proof.
  rewrite !ltb_spec.
  change (Prim2SF M_HALFPI) with (S754_finite false 7074237752028440 (-52)).
  change (Prim2SF (- M_HALFPI)) with (S754_finite true 7074237752028440 (-52)).
  unfold SFltb.
  destruct (Prim2SF phi) as [s|s| |s m e]; cbn [SFcompare];
    try reflexivity; try discriminate; destruct s; try reflexivity; discriminate.
Qed.

Lemma lat_bound_not_nan (phi : float) :
  (abs phi - M_HALFPI <=? PJ_EPS_LAT) = true -> Prim2SF phi <> S754_nan.
Proof.
  rewrite leb_spec, sub_spec, abs_spec. intros H Hnan.
  rewrite Hnan in H. discriminate.
Qed.

(** The test of lines 56-57 in terms of absolute values. *)
Lemma lat_or_lon_exceed_limit_abs (coo : PJ_COORD) :
  lat_or_lon_exceed_limit coo = exceeds_limit coo.
Proof.
  unfold lat_or_lon_exceed_limit, exceeds_limit.
  now rewrite conditional_abs_sub, abs_gt_10, orb_assoc.
Qed.

(** * Properties *)

Section Properties.
Context {E : Externals}.

Abbreviation descriptor := (PJ PJ_sub).

(** *** Which events a stage can cause *)

Lemma no_event_bind {A B : Type} (f : event -> bool) (m : M A) (k : A -> M B) :
  existsb f (trace m) = false ->
  (forall a, existsb f (trace (k a)) = false) ->
  existsb f (trace (bind m k)) = false.
Proof.
  intros Hm Hk. unfold bind, trace in *. cbn [snd].
  rewrite existsb_app, Hm. apply Hk.
Qed.

Ltac case_step :=
  match goal with
  | |- context [if ?b then _ else _] => destruct b
  | |- context [match ?x with _ => _ end] => destruct x
  end.

Section NoEvent.
Variable f : event -> bool.
Hypothesis f_trans : forall op dir arg res, f (ev_trans op dir arg res) = false.
Hypothesis f_geocentric : forall dir arg res, f (ev_geocentric dir arg res) = false.

Lemma trans_no_event op Q dir coo : existsb f (trace (trans op Q dir coo)) = false.
Proof. unfold trans, trace. cbn [snd existsb]. now rewrite f_trans. Qed.

Lemma geocentric_no_event (P : descriptor) dir coo :
  existsb f (trace (geocentric_latitude P dir coo)) = false.
Proof. unfold geocentric_latitude, trace. cbn [snd existsb]. now rewrite f_geocentric. Qed.

Lemma axisswap_no_event (P : descriptor) coo :
  existsb f (trace (apply_axisswap P coo)) = false.
Proof. unfold apply_axisswap. case_step; [apply trans_no_event | reflexivity]. Qed.

Lemma horizontal_no_event (P : descriptor) coo :
  existsb f (trace (horizontal_datum_shift P coo)) = false.
Proof.
  unfold horizontal_datum_shift.
  repeat first [apply trans_no_event | apply no_event_bind; [|intro] | reflexivity | case_step].
Qed.

Lemma datum_no_event (P : descriptor) coo :
  existsb f (trace (prepare_datum P coo)) = false.
Proof.
  unfold prepare_datum. apply no_event_bind; [apply horizontal_no_event | intro].
  repeat first [apply trans_no_event | reflexivity | case_step].
Qed.

Lemma geographic_no_event (P : descriptor) coo :
  existsb f (trace (prepare_geographic P coo)) = false.
Proof.
  unfold prepare_geographic. apply no_event_bind; [| intro; apply datum_no_event].
  case_step; [apply geocentric_no_event | reflexivity].
Qed.

Lemma finalize_geocentric_no_event (P : descriptor) coo :
  existsb f (trace (finalize_geocentric P coo)) = false.
Proof.
  unfold finalize_geocentric. case_step; [apply geocentric_no_event | reflexivity].
Qed.

Lemma finalize_geographic_no_event (P : descriptor) coo :
  existsb f (trace (finalize_geographic P coo)) = false.
Proof.
  unfold finalize_geographic. apply no_event_bind.
  - case_step; [apply trans_no_event | reflexivity].
  - intro. case_step; [reflexivity|].
    apply no_event_bind; [apply horizontal_no_event | intro].
    case_step; reflexivity.
Qed.

(** Prepare and Finalize set error codes but never call a transform. *)
Hypothesis f_errno : forall e, f (ev_errno e) = false.

Lemma prepare_no_event (P : descriptor) coo :
  existsb f (trace (pj_inv_prepare P coo)) = false.
Proof.
  unfold pj_inv_prepare. case_step.
  - unfold bind, proj_errno_set, ret, trace. cbn [snd app existsb]. now rewrite f_errno.
  - apply no_event_bind; [apply axisswap_no_event | intro c].
    unfold prepare_units, prepare_angular, prepare_cartesian, prepare_projected.
    destruct (right P).
    + reflexivity.
    + reflexivity.
    + reflexivity.
    + case_step; [apply trans_no_event | reflexivity].
    + case_step; [| apply geographic_no_event].
      unfold bind, proj_errno_set, ret, trace. cbn [snd app existsb].
      now rewrite f_errno.
Qed.

Lemma finalize_no_event (P : descriptor) coo :
  existsb f (trace (pj_inv_finalize P coo)) = false.
Proof.
  unfold pj_inv_finalize. case_step.
  - unfold bind, proj_errno_set, ret, trace. cbn [snd app existsb]. now rewrite f_errno.
  - destruct (left P); try reflexivity.
    destruct (right P); try apply finalize_geocentric_no_event;
      (apply no_event_bind; [apply finalize_geographic_no_event | intro r];
       case_step; [reflexivity | apply finalize_geocentric_no_event]).
Qed.

End NoEvent.

Lemma prepare_no_core (P : descriptor) (coo : PJ_COORD) :
  existsb is_core_event (trace (pj_inv_prepare P coo)) = false.
Proof. apply prepare_no_event; reflexivity. Qed.

Lemma finalize_no_core (P : descriptor) (coo : PJ_COORD) :
  existsb is_core_event (trace (pj_inv_finalize P coo)) = false.
Proof. apply finalize_no_event; reflexivity. Qed.

Lemma entry_prepare_no_core (P : descriptor) (coo : PJ_COORD) :
  existsb is_core_event (trace (entry_prepare P coo)) = false.
Proof.
  unfold entry_prepare. destruct (skip_inv_prepare P); cbn [negb].
  - reflexivity.
  - apply prepare_no_core.
Qed.

Lemma entry_finalize_no_core (P : descriptor) (coo : PJ_COORD) :
  existsb is_core_event (trace (entry_finalize P coo)) = false.
Proof.
  unfold entry_finalize. destruct (skip_inv_finalize P); cbn [negb].
  - reflexivity.
  - apply finalize_no_core.
Qed.

Lemma filter_core_none (t : list event) :
  existsb is_core_event t = false -> filter is_core_event t = [].
Proof.
  induction t as [|ev t IH]; cbn [existsb filter]; intros H.
  - reflexivity.
  - apply orb_false_iff in H. destruct H as [Hev Ht].
    rewrite Hev. now apply IH.
Qed.

(** The three dispatch chains of the source are the fallback orders of the
    specification. *)
Lemma dispatch_chains (P : descriptor) (coo : PJ_COORD) :
  dispatch_inv P coo = dispatch_spec P D2 coo /\
  dispatch_inv3d P coo = dispatch_spec P D3 coo /\
  dispatch_inv4d P coo = dispatch_spec P D4 coo.
Proof.
  unfold dispatch_inv, dispatch_inv3d, dispatch_inv4d, dispatch_spec.
  cbn [fallback_order first_implementation implementation].
  destruct (inv P), (inv3d P), (inv4d P); cbn [option_map]; repeat split.
Qed.


Lemma proj_errno_last (t : list event) (e : pj_errno) :
  proj_errno (t ++ [ev_errno e]) = Some e.
Proof. unfold proj_errno. now rewrite fold_left_app. Qed.




(** An entry point whose input has the sentinel as first component stops
    at the check of lines 182, 212 and 239, with or without Prepare. *)
Lemma entry_body_sentinel
    (dispatch : descriptor -> PJ_COORD -> M (option PJ_COORD))
    (P : descriptor) (coo : PJ_COORD) :
  v0 coo = HUGE_VAL ->
  value (entry_body dispatch P coo) = proj_coord_error /\
  existsb is_core_event (trace (entry_body dispatch P coo)) = false.
Proof.
  intros Hx. unfold entry_body, entry_prepare, pj_inv_prepare.
  destruct (skip_inv_prepare P); cbn [negb]; rewrite ?Hx;
    unfold bind, ret, proj_errno_set, value, trace; cbn [fst snd];
    rewrite ?Hx; split; reflexivity.
Qed.

(** C9.  When the first component of the input is the sentinel, no entry
    point calls a transform implementation and each returns the error
    coordinate, whether [skip_inv_prepare] is set or not. *)
Theorem sentinel_input_never_dispatched (P : descriptor) :
  (forall xy : XY, fst xy = HUGE_VAL ->
     value (pj_inv xy P) = coo_lp proj_coord_error /\
     existsb is_core_event (trace (pj_inv xy P)) = false) /\
  (forall xyz : XYZ, fst (fst xyz) = HUGE_VAL ->
     value (pj_inv3d xyz P) = coo_lpz proj_coord_error /\
     existsb is_core_event (trace (pj_inv3d xyz P)) = false) /\
  (forall coo : PJ_COORD, v0 coo = HUGE_VAL ->
     value (pj_inv4d coo P) = proj_coord_error /\
     existsb is_core_event (trace (pj_inv4d coo P)) = false).
Proof.
  repeat split; intros.
  - destruct (entry_body_sentinel dispatch_inv P (set_xy coo_zero xy) H) as [Hv _].
    unfold pj_inv, bind, ret, value in *. cbn [fst snd]. now rewrite Hv.
  - destruct (entry_body_sentinel dispatch_inv P (set_xy coo_zero xy) H) as [_ Ht].
    unfold pj_inv, bind, ret, trace in *. cbn [fst snd]. now rewrite app_nil_r.
  - destruct (entry_body_sentinel dispatch_inv3d P (set_xyz coo_zero xyz) H) as [Hv _].
    unfold pj_inv3d, bind, ret, value in *. cbn [fst snd]. now rewrite Hv.
  - destruct (entry_body_sentinel dispatch_inv3d P (set_xyz coo_zero xyz) H) as [_ Ht].
    unfold pj_inv3d, bind, ret, trace in *. cbn [fst snd]. now rewrite app_nil_r.
  - now destruct (entry_body_sentinel dispatch_inv4d P coo H).
  - now destruct (entry_body_sentinel dispatch_inv4d P coo H).
Qed.

(** C8.  Past the sentinel check, with [c] the coordinate after the Helmert
    defaults and the optional axis swap: for classic input units Prepare
    returns [x = (to_meter * x - x0) * ra], [y = (to_meter * y - y0) * ra]
    and [z = vto_meter * z - z0], a multiplication by [ra]; for projected
    input units it returns the same without the factor [ra]. *)
Theorem classic_input_scaling (P : descriptor) (coo : PJ_COORD) :
  (xyz_x coo =? HUGE_VAL) = false ->
  let swap := apply_axisswap P (helmert_defaults P coo) in
  let c := value swap in
  (right P = PJ_IO_UNITS_CLASSIC ->
     pj_inv_prepare P coo =
       (mkCoord ((to_meter P * xyz_x c - x0 P) * ra P)
                ((to_meter P * xyz_y c - y0 P) * ra P)
                (vto_meter P * xyz_z c - z0 P)
                (v3 c),
        trace swap)) /\
  (right P = PJ_IO_UNITS_PROJECTED ->
     pj_inv_prepare P coo =
       (mkCoord (to_meter P * xyz_x c - x0 P)
                (to_meter P * xyz_y c - y0 P)
                (vto_meter P * xyz_z c - z0 P)
                (v3 c),
        trace swap)).
Proof.
  intros Hx swap c. subst c.
  unfold pj_inv_prepare, prepare_units, prepare_projected. rewrite Hx.
  fold swap. unfold bind, ret, value, trace.
  split; intros ->; cbn [fst snd set_v0 set_v1 set_v2 v0 v1 v2 v3];
    now rewrite app_nil_r.
Qed.

(** C7.  Past the sentinel check, Prepare replaces a sentinel third and a
    sentinel fourth component by zero exactly when the descriptor has a
    Helmert sub-operation, and it does so before the first sub-operation
    (the axis swap) runs: all that follows works on the substituted
    coordinate, whose third and fourth components are then no sentinel. *)
Theorem helmert_zero_substitution (P : descriptor) (coo : PJ_COORD) :
  (xyz_x coo =? HUGE_VAL) = false ->
  let h := is_some (helmert P) in
  let coo' := mkCoord (v0 coo) (v1 coo)
                (substitute_zero h (v2 coo)) (substitute_zero h (v3 coo)) in
  pj_inv_prepare P coo = (c <- apply_axisswap P coo' ;; prepare_units P c) /\
  (h = true -> (HUGE_VAL =? v2 coo') = false /\ (HUGE_VAL =? v3 coo') = false) /\
  (h = false -> coo' = coo).
Proof.
  intros Hx h coo'. subst coo'. unfold pj_inv_prepare. rewrite Hx.
  assert (Hd : helmert_defaults P coo
               = mkCoord (v0 coo) (v1 coo)
                   (substitute_zero h (v2 coo)) (substitute_zero h (v3 coo))).
  { unfold helmert_defaults, substitute_zero. fold h.
    destruct coo as [a b c d]. cbn [v0 v1 v2 v3].
    destruct h; rewrite ?andb_false_r, ?andb_true_r; [|reflexivity].
    destruct (HUGE_VAL =? c); cbn [v0 v1 v2 v3 set_v2];
      destruct (HUGE_VAL =? d); reflexivity. }
  rewrite Hd. split; [reflexivity|]. split.
  - intros ->. unfold substitute_zero. cbn [v2 v3].
    split.
    + destruct (HUGE_VAL =? v2 coo) eqn:H2; [reflexivity | exact H2].
    + destruct (HUGE_VAL =? v3 coo) eqn:H3; [reflexivity | exact H3].
  - intros ->. destruct coo; reflexivity.
Qed.

Lemma clamp_latitude_range (coo : PJ_COORD) :
  Prim2SF (lp_phi coo) <> S754_nan ->
  (- M_HALFPI <=? lp_phi (clamp_latitude coo)) = true /\
  (lp_phi (clamp_latitude coo) <=? M_HALFPI) = true.
Proof.
  intros Hnan. unfold clamp_latitude.
  destruct (M_HALFPI <? lp_phi coo) eqn:Hhi; cbn [v1 set_v1].
  - change (M_HALFPI <? - M_HALFPI) with false. cbn [v1 set_v1].
    split; reflexivity.
  - destruct (lp_phi coo <? - M_HALFPI) eqn:Hlo; cbn [v1 set_v1].
    + split; reflexivity.
    + split; apply not_ltb_leb; try assumption; discriminate.
Qed.

Lemma clamp_latitude_others (coo : PJ_COORD) :
  v0 (clamp_latitude coo) = v0 coo /\
  v2 (clamp_latitude coo) = v2 coo /\
  v3 (clamp_latitude coo) = v3 coo.
Proof.
  unfold clamp_latitude.
  destruct (M_HALFPI <? lp_phi coo); cbn [v1 set_v1];
    match goal with |- context [if ?b then _ else _] => destruct b end;
    repeat split.
Qed.

Lemma helmert_defaults_xy (P : descriptor) (coo : PJ_COORD) :
  v0 (helmert_defaults P coo) = v0 coo /\ v1 (helmert_defaults P coo) = v1 coo.
Proof.
  unfold helmert_defaults.
  destruct ((HUGE_VAL =? v2 coo) && is_some (helmert P));
    match goal with |- context [if ?b then _ else _] => destruct b end;
    split; reflexivity.
Qed.

Lemma axisswap_no_errno (P : descriptor) (coo : PJ_COORD) :
  existsb is_errno_event (trace (apply_axisswap P coo)) = false.
Proof. apply axisswap_no_event; reflexivity. Qed.

Lemma geographic_no_errno (P : descriptor) (coo : PJ_COORD) :
  existsb is_errno_event (trace (prepare_geographic P coo)) = false.
Proof. apply geographic_no_event; reflexivity. Qed.

Lemma no_errno_not_in (t : list event) (e : pj_errno) :
  existsb is_errno_event t = false -> ~ In (ev_errno e) t.
Proof.
  intros Hno Hin.
  assert (Hex : existsb is_errno_event t = true)
    by (apply existsb_exists; exists (ev_errno e); split; [exact Hin | reflexivity]).
  congruence.
Qed.

(** Past the sentinel check, Prepare is the axis swap on the coordinate
    with its Helmert defaults, followed by the branch on the input units. *)
Lemma prepare_run (P : descriptor) (coo : PJ_COORD) :
  (xyz_x coo =? HUGE_VAL) = false ->
  pj_inv_prepare P coo =
    (c <- apply_axisswap P (helmert_defaults P coo) ;; prepare_units P c).
Proof. intros Hx. unfold pj_inv_prepare. now rewrite Hx. Qed.

Lemma prepare_angular_run (P : descriptor) (coo : PJ_COORD) :
  right P = PJ_IO_UNITS_ANGULAR ->
  (xyz_x coo =? HUGE_VAL) = false ->
  let swap := apply_axisswap P (helmert_defaults P coo) in
  pj_inv_prepare P coo =
    (value (prepare_angular P (value swap)),
     trace swap ++ trace (prepare_angular P (value swap))).
Proof.
  intros Hr Hx swap. rewrite (prepare_run P coo Hx). fold swap.
  unfold bind, prepare_units. now rewrite Hr.
Qed.

(** The range-limit error is set by the range check and nowhere else. *)
Lemma range_check_limit (P : descriptor) (coo : PJ_COORD) :
  right P = PJ_IO_UNITS_ANGULAR ->
  (xyz_x coo =? HUGE_VAL) = false ->
  let c := value (apply_axisswap P (helmert_defaults P coo)) in
  (exceeds_limit c = false ->
     ~ In (ev_errno PJD_ERR_LAT_OR_LON_EXCEED_LIMIT) (trace (pj_inv_prepare P coo))) /\
  (exceeds_limit c = true ->
     pj_inv_prepare P coo =
       (proj_coord_error,
        trace (apply_axisswap P (helmert_defaults P coo))
          ++ [ev_errno PJD_ERR_LAT_OR_LON_EXCEED_LIMIT])).
Proof.
  intros Hr Hx c.
  rewrite (prepare_angular_run P coo Hr Hx).
  set (swap := apply_axisswap P (helmert_defaults P coo)) in *.
  unfold value, trace in *. cbn [fst snd]. fold c.
  unfold prepare_angular. rewrite lat_or_lon_exceed_limit_abs.
  pose proof (axisswap_no_errno P (helmert_defaults P coo)) as Hswap.
  pose proof (geographic_no_errno P (clamp_latitude c)) as Hgeo.
  unfold trace in Hswap, Hgeo. fold swap in Hswap.
  destruct (exceeds_limit c) eqn:Hlim.
  - split; [discriminate | intros _; reflexivity].
  - split; [intros _ | discriminate].
    intros Hin. apply in_app_or in Hin.
    destruct Hin as [Hin | Hin];
      revert Hin; apply no_errno_not_in; assumption.
Qed.

(** C2, amended.  With angular input units and past the sentinel check,
    Prepare fails with [PJD_ERR_LAT_OR_LON_EXCEED_LIMIT] exactly when the
    coordinate [c] it checks (the input after the Helmert defaults and the
    optional axis swap) has |latitude| - 90 degrees > epsilon or
    |longitude| > 10; it then returns the error coordinate and the error
    code it leaves behind is that one. *)
Theorem range_check_rejects (P : descriptor) (coo : PJ_COORD) :
  right P = PJ_IO_UNITS_ANGULAR ->
  (xyz_x coo =? HUGE_VAL) = false ->
  let c := value (apply_axisswap P (helmert_defaults P coo)) in
  let run := pj_inv_prepare P coo in
  (In (ev_errno PJD_ERR_LAT_OR_LON_EXCEED_LIMIT) (trace run)
     <-> exceeds_limit c = true) /\
  (exceeds_limit c = true ->
     value run = proj_coord_error /\
     proj_errno (trace run) = Some PJD_ERR_LAT_OR_LON_EXCEED_LIMIT).
Proof.
  intros Hr Hx c run. subst run.
  destruct (range_check_limit P coo Hr Hx) as [Hno Hyes]. fold c in Hno, Hyes.
  destruct (exceeds_limit c) eqn:Hlim.
  - rewrite (Hyes eq_refl). unfold value, trace. cbn [fst snd]. split.
    + split; [reflexivity | intros _].
      apply in_or_app. right. now left.
    + intros _. split; [reflexivity | apply proj_errno_last].
  - split; [split | discriminate].
    + intros Hin. now elim (Hno eq_refl).
    + discriminate.
Qed.

(** C3.  With angular input units, when the coordinate [c] that Prepare
    checks (the input after the Helmert defaults and the optional axis swap)
    has |latitude| - 90 degrees <= epsilon and |longitude| <= 10, Prepare
    does not set the range-limit error: it goes on with [c] whose latitude
    is clamped, and the clamped latitude lies in [-90, 90] degrees, the
    other three components being untouched.  A latitude above 90 degrees
    becomes exactly 90 degrees, one below -90 degrees exactly -90 degrees,
    any other is kept.  (The sentinel check on the raw first component
    needs a hypothesis only under an axis swap; without one it follows from
    |longitude| <= 10.) *)
Theorem latitude_clamped (P : descriptor) (coo : PJ_COORD) :
  right P = PJ_IO_UNITS_ANGULAR ->
  (is_some (axisswap P) = true -> (xyz_x coo =? HUGE_VAL) = false) ->
  let swap := apply_axisswap P (helmert_defaults P coo) in
  let c := value swap in
  (abs (lp_phi c) - M_HALFPI <=? PJ_EPS_LAT) = true ->
  (abs (lp_lam c) <=? 10) = true ->
  let c' := clamp_latitude c in
  pj_inv_prepare P coo = (_ <- swap ;; prepare_geographic P c') /\
  ~ In (ev_errno PJD_ERR_LAT_OR_LON_EXCEED_LIMIT) (trace (pj_inv_prepare P coo)) /\
  ((- M_HALFPI <=? lp_phi c') = true /\ (lp_phi c' <=? M_HALFPI) = true) /\
  (v0 c' = v0 c /\ v2 c' = v2 c /\ v3 c' = v3 c) /\
  ((M_HALFPI <? lp_phi c) = true -> lp_phi c' = M_HALFPI) /\
  ((lp_phi c <? - M_HALFPI) = true -> lp_phi c' = - M_HALFPI) /\
  ((M_HALFPI <? lp_phi c) = false -> (lp_phi c <? - M_HALFPI) = false ->
     lp_phi c' = lp_phi c).
Proof.
  intros Hr Hswap swap c Hlat Hlon c'.
  assert (Hx : (xyz_x coo =? HUGE_VAL) = false).
  { destruct (is_some (axisswap P)) eqn:Hax; [now apply Hswap|].
    apply abs_le_10_not_sentinel.
    subst c swap. unfold apply_axisswap in Hlon. rewrite Hax in Hlon.
    unfold value, ret in Hlon. cbn [fst] in Hlon.
    now rewrite (proj1 (helmert_defaults_xy P coo)) in Hlon. }
  assert (Hlim : exceeds_limit c = false).
  { unfold exceeds_limit. apply orb_false_iff.
    split; now apply leb_not_ltb. }
  assert (Hrun : pj_inv_prepare P coo = (_ <- swap ;; prepare_geographic P c')).
  { rewrite (prepare_angular_run P coo Hr Hx). fold swap. fold c.
    unfold prepare_angular. rewrite lat_or_lon_exceed_limit_abs, Hlim.
    reflexivity. }
  split; [exact Hrun|]. split.
  - apply (proj1 (range_check_limit P coo Hr Hx)). fold swap. fold c.
    now rewrite Hlim.
  - split; [apply clamp_latitude_range; now apply lat_bound_not_nan|].
    split; [apply clamp_latitude_others|].
    subst c'. unfold clamp_latitude. repeat split.
    + intros ->. cbn [v1 set_v1]. reflexivity.
    + intros Hlo. destruct (M_HALFPI <? lp_phi c) eqn:Hhi; cbn [v1 set_v1].
      * apply above_pole_not_below in Hhi. congruence.
      * now rewrite Hlo.
    + intros -> ->. reflexivity.
Qed.

(** C4.  With angular input units, over-range not allowed, past the
    sentinel check and the range check: with [g] the clamped coordinate
    after the optional geocentric latitude conversion, Prepare sets the
    longitude to [adjlon ((lam + from_greenwich) - lam0)] and hands the
    coordinate to the datum corrections; when that difference is finite and
    [adjlon] normalizes as the specification says, the longitude handed on
    lies in (-pi, pi]. *)
Theorem longitude_normalized (P : descriptor) (coo : PJ_COORD) :
  adjlon_normalizes ->
  right P = PJ_IO_UNITS_ANGULAR ->
  over P = false ->
  (xyz_x coo =? HUGE_VAL) = false ->
  let swap := apply_axisswap P (helmert_defaults P coo) in
  let c := clamp_latitude (value swap) in
  exceeds_limit (value swap) = false ->
  let geo := if geoc P then geocentric_latitude P PJ_INV c else ret c in
  let g := value geo in
  let lon := (lp_lam g + from_greenwich P) - lam0 P in
  is_finite lon = true ->
  central_meridian_distance P g = set_v0 g (adjlon lon) /\
  pj_inv_prepare P coo =
    (_ <- swap ;; _ <- geo ;; prepare_datum P (set_v0 g (adjlon lon))) /\
  in_minus_pi_pi (lp_lam (set_v0 g (adjlon lon))) = true.
Proof.
  intros Hadj Hr Hover Hx swap c Hlim geo g lon Hfin.
  assert (Hcmd : central_meridian_distance P g = set_v0 g (adjlon lon)).
  { unfold central_meridian_distance. rewrite Hover. cbn [negb].
    destruct g; reflexivity. }
  split; [exact Hcmd|]. split.
  - rewrite (prepare_angular_run P coo Hr Hx). fold swap.
    unfold prepare_angular. rewrite lat_or_lon_exceed_limit_abs, Hlim.
    unfold prepare_geographic. fold c. fold geo.
    unfold bind, value, trace in *. cbn [fst snd]. fold g.
    now rewrite Hcmd.
  - cbn [v0 set_v0]. now apply Hadj.
Qed.

(** *** Sentinel propagation *)

Lemma no_split (f : event -> bool) (t pre post : list event) (e : event) :
  existsb f t = false -> f e = true -> t <> pre ++ e :: post.
Proof.
  intros Hno He ->. rewrite existsb_app in Hno. cbn [existsb] in Hno.
  rewrite He in Hno. now destruct (existsb f pre).
Qed.

Lemma unique_split (f : event -> bool) (t1 t2 pre post : list event) (e e' : event) :
  existsb f t1 = false -> existsb f t2 = false -> f e' = true ->
  t1 ++ e :: t2 = pre ++ e' :: post ->
  pre = t1 /\ e' = e /\ post = t2.
Proof.
  revert pre. induction t1 as [|a t1 IH]; intros pre H1 H2 He' Heq.
  - destruct pre as [|x pre]; cbn [app] in Heq.
    + injection Heq as -> ->. repeat split.
    + injection Heq as -> Heq. exfalso. exact (no_split f _ _ _ _ H2 He' Heq).
  - cbn [existsb] in H1. apply orb_false_iff in H1. destruct H1 as [Ha H1].
    destruct pre as [|x pre]; cbn [app] in Heq.
    + injection Heq as -> _. congruence.
    + injection Heq as -> Heq.
      destruct (IH pre H1 H2 He' Heq) as (-> & -> & ->). repeat split.
Qed.

(** What [stops_on_sentinel] says of any way to single out the result of
    the horizontal datum correction in the trace. *)
Lemma stops_on_sentinel_split (m : M PJ_COORD) :
  stops_on_sentinel m ->
  forall pre post op dir arg res,
    trace m = pre ++ ev_trans op dir arg res :: post ->
    op = HGRIDSHIFT \/ op = CART_WGS84 ->
    (lp_lam res =? HUGE_VAL) = true ->
    post = [] /\ value m = res.
Proof.
  intros Hm pre post op dir arg res Heq Hop Hres.
  assert (He : is_horizontal_result (ev_trans op dir arg res) = true)
    by (destruct Hop as [-> | ->]; reflexivity).
  destruct Hm as [Hno | (t1 & e & t2 & Ht & H1 & H2 & Hstop)].
  - exfalso. exact (no_split _ _ _ _ _ Hno He Heq).
  - rewrite Ht in Heq.
    destruct (unique_split _ _ _ _ _ _ _ H1 H2 He Heq) as (_ & Hee & Hpost).
    subst post. now apply (Hstop op dir arg res).
Qed.

(** A prefix without horizontal datum correction changes nothing. *)
Lemma stops_on_sentinel_bind {A : Type} (m : M A) (k : A -> M PJ_COORD) :
  existsb is_horizontal_result (trace m) = false ->
  stops_on_sentinel (k (value m)) ->
  stops_on_sentinel (bind m k).
Proof.
  intros Hm [Hno | (t1 & e & t2 & Ht & H1 & H2 & Hstop)]; unfold value, trace in *.
  - left. unfold bind, trace. cbn [snd]. now rewrite existsb_app, Hm.
  - right. exists (snd m ++ t1), e, t2. unfold bind, value, trace. cbn [fst snd].
    rewrite Ht, app_assoc. split; [reflexivity|].
    split; [now rewrite existsb_app, Hm|]. split; assumption.
Qed.

Lemma stops_on_sentinel_quiet (m : M PJ_COORD) :
  existsb is_horizontal_result (trace m) = false -> stops_on_sentinel m.
Proof. now left. Qed.

(** The horizontal datum correction ends with the event that carries its
    result, when it does anything at all. *)
Lemma horizontal_shape (P : descriptor) (coo : PJ_COORD) :
  let m := horizontal_datum_shift P coo in
  existsb is_horizontal_result (trace m) = false \/
  exists t1 op dir arg,
    trace m = t1 ++ [ev_trans op dir arg (value m)] /\
    existsb is_horizontal_result t1 = false.
Proof.
  unfold horizontal_datum_shift.
  destruct (is_some (hgridshift P)); [|destruct (is_some (helmert P))].
  - right. exists [], HGRIDSHIFT, PJ_FWD, coo. split; reflexivity.
  - right. unfold bind, trans, value, trace. cbn [fst snd app].
    eexists [_; _], CART_WGS84, PJ_INV, _. split; reflexivity.
  - left. reflexivity.
Qed.

(** The horizontal datum correction followed by a check of the longitude:
    on the sentinel the run ends with the result of the correction, and
    otherwise goes on with steps that are no horizontal correction. *)
Lemma horizontal_then_check (P : descriptor) (coo : PJ_COORD)
    (k : PJ_COORD -> M PJ_COORD) :
  (forall c, existsb is_horizontal_result (trace (k c)) = false) ->
  stops_on_sentinel
    (c <- horizontal_datum_shift P coo ;;
     if lp_lam c =? HUGE_VAL then ret c else k c).
Proof.
  intros Hk. destruct (horizontal_shape P coo) as [Hno | (t1 & op & dir & arg & Ht & H1)].
  - apply stops_on_sentinel_bind; [exact Hno|].
    apply stops_on_sentinel_quiet. case_step; [reflexivity | apply Hk].
  - right. set (m := horizontal_datum_shift P coo) in *.
    exists t1, (ev_trans op dir arg (value m)),
      (trace (if lp_lam (value m) =? HUGE_VAL then ret (value m) else k (value m))).
    unfold bind, value, trace in *. cbn [fst snd]. rewrite Ht, <- app_assoc.
    split; [reflexivity|]. split; [exact H1|]. split.
    + case_step; [reflexivity | apply Hk].
    + intros op' dir' arg' res Heq Hres. injection Heq as _ _ _ <-.
      rewrite Hres. split; reflexivity.
Qed.

Lemma prepare_stops_on_sentinel (P : descriptor) (coo : PJ_COORD) :
  stops_on_sentinel (pj_inv_prepare P coo).
Proof.
  unfold pj_inv_prepare. case_step; [now left|].
  apply stops_on_sentinel_bind; [unfold apply_axisswap; case_step; reflexivity|].
  unfold prepare_units, prepare_angular, prepare_cartesian, prepare_projected.
  destruct (right P); try (now left).
  - left. case_step; reflexivity.
  - case_step; [now left|].
    unfold prepare_geographic. apply stops_on_sentinel_bind.
    + case_step; reflexivity.
    + unfold prepare_datum. apply horizontal_then_check.
      intros c. case_step; reflexivity.
Qed.

(** Lines 143-168 with the two early returns written as such. *)
Lemma finalize_geographic_run (P : descriptor) (coo : PJ_COORD) :
  (r <- finalize_geographic P coo ;;
   if snd r then ret (fst r) else finalize_geocentric P (fst r))
  =
  (let coo := set_v0 coo (lp_lam coo + from_greenwich P + lam0 P) in
   let coo := if negb (over P) then set_v0 coo (adjlon (lp_lam coo)) else coo in
   coo <- (if is_some (vgridshift P) then trans VGRIDSHIFT (vgridshift P) PJ_INV coo
           else ret coo) ;;
   if lp_lam coo =? HUGE_VAL then ret coo
   else
     coo <- horizontal_datum_shift P coo ;;
     if lp_lam coo =? HUGE_VAL then ret coo else finalize_geocentric P coo).
Proof.
  unfold finalize_geographic. cbv zeta.
  set (c1 := if negb (over P) then _ else _).
  set (vg := if is_some (vgridshift P) then _ else _).
  unfold bind at 1 2 4. cbn [fst snd].
  destruct (lp_lam (fst vg) =? HUGE_VAL); cbn [fst snd ret].
  - now rewrite !app_nil_r.
  - set (h := horizontal_datum_shift P (fst vg)).
    unfold bind. cbn [fst snd].
    destruct (lp_lam (fst h) =? HUGE_VAL); cbn [fst snd ret];
      now rewrite ?app_nil_r, ?app_assoc.
Qed.

Lemma finalize_stops_on_sentinel (P : descriptor) (coo : PJ_COORD) :
  stops_on_sentinel (pj_inv_finalize P coo).
Proof.
  unfold pj_inv_finalize. case_step; [now left|].
  destruct (left P); try (now left).
  assert (Hgeo : forall c,
             existsb is_horizontal_result (trace (finalize_geocentric P c)) = false)
    by (intros c; unfold finalize_geocentric; case_step; reflexivity).
  destruct (right P); try (left; apply Hgeo).
  all: rewrite finalize_geographic_run; cbv zeta.
  all: apply stops_on_sentinel_bind; [case_step; reflexivity|].
  all: case_step; [left; reflexivity|].
  all: apply horizontal_then_check; exact Hgeo.
Qed.

(** C5.  In Prepare and in Finalize alike: if the event that ends the
    horizontal datum correction (the grid shift, or the last step of the
    Helmert chain) carries a result whose longitude is the sentinel, then
    that event is the last of the run and its result is what the stage
    returns.  Nothing that follows the correction in the source is applied:
    not the vertical grid shift in Prepare, not the geocentric latitude
    conversion in Finalize. *)
Theorem sentinel_propagation (P : descriptor) (coo : PJ_COORD) :
  (forall pre post op dir arg res,
     trace (pj_inv_prepare P coo) = pre ++ ev_trans op dir arg res :: post ->
     op = HGRIDSHIFT \/ op = CART_WGS84 ->
     (lp_lam res =? HUGE_VAL) = true ->
     post = [] /\ value (pj_inv_prepare P coo) = res) /\
  (forall pre post op dir arg res,
     trace (pj_inv_finalize P coo) = pre ++ ev_trans op dir arg res :: post ->
     op = HGRIDSHIFT \/ op = CART_WGS84 ->
     (lp_lam res =? HUGE_VAL) = true ->
     post = [] /\ value (pj_inv_finalize P coo) = res).
Proof.
  split.
  - apply stops_on_sentinel_split, prepare_stops_on_sentinel.
  - apply stops_on_sentinel_split, finalize_stops_on_sentinel.
Qed.

(** *** The order of the steps of Finalize *)

Lemma bind_ret_l {A B : Type} (a : A) (k : A -> M B) : bind (ret a) k = k a.
Proof. unfold bind, ret. cbn [fst snd app]. now destruct (k a). Qed.

Lemma bind_ret_r {A : Type} (m : M A) : bind m ret = m.
Proof. unfold bind, ret. cbn [fst snd]. rewrite app_nil_r. now destruct m. Qed.

Lemma bind_assoc {A B C : Type} (m : M A) (f : A -> M B) (g : B -> M C) :
  bind (bind m f) g = bind m (fun a => bind (f a) g).
Proof. unfold bind. cbn [fst snd]. now rewrite app_assoc. Qed.

Lemma bind_ext {A B : Type} (m : M A) (f g : A -> M B) :
  (forall a, f a = g a) -> bind m f = bind m g.
Proof. intros H. unfold bind. now rewrite H. Qed.

Lemma run_steps_continue (s : step) (rest : list step) (coo c : PJ_COORD)
    (t : list event) :
  s coo = (Continue c, t) ->
  run_steps (s :: rest) coo = bind (c, t) (run_steps rest).
Proof. intros H. cbn [run_steps]. now rewrite H. Qed.

Lemma run_steps_quiet (s : step) (rest : list step) (coo c : PJ_COORD) :
  s coo = (Continue c, []) ->
  run_steps (s :: rest) coo = run_steps rest c.
Proof.
  intros H. rewrite (run_steps_continue s rest coo c [] H).
  exact (bind_ret_l c (run_steps rest)).
Qed.

Lemma bind_pair {A B : Type} (m : M A) (k : A -> M B) :
  bind (fst m, snd m) k = bind m k.
Proof. reflexivity. Qed.

Lemma run_steps_check (rest : list step) (coo : PJ_COORD) :
  run_steps (check_sentinel :: rest) coo =
    if lp_lam coo =? HUGE_VAL then ret coo else run_steps rest coo.
Proof.
  cbn [run_steps]. unfold check_sentinel.
  destruct (lp_lam coo =? HUGE_VAL); cbn [fst snd app]; [reflexivity|].
  now destruct (run_steps rest coo).
Qed.

Lemma horizontal_correction_run (P : descriptor) (coo : PJ_COORD) :
  horizontal_correction P coo =
    (Continue (value (horizontal_datum_shift P coo)),
     trace (horizontal_datum_shift P coo)).
Proof.
  unfold horizontal_correction, horizontal_datum_shift.
  destruct (hgridshift P); [reflexivity|].
  destruct (helmert P); reflexivity.
Qed.

(** C6.  With angular output units and non-angular input units, past the
    sentinel check on entry, Finalize is the sequence of steps of the
    specification, in that order: add [from_greenwich + lam0] to the
    longitude; normalize it with [adjlon] unless over-range is allowed;
    apply the vertical grid shift in its inverse sense if configured;
    return on a sentinel longitude; apply the horizontal datum correction
    (the grid shift forward, or else the Helmert chain: local cartesian
    forward, Helmert forward, WGS84 cartesian inverse, each on the result
    of the one before); return on a sentinel longitude; convert the
    latitude back to geocentric if geocentric latitude is in use.  Each
    step is written out on [adjlon], [proj_trans] and
    [proj_geocentric_latitude] themselves. *)
Theorem finalize_order (P : descriptor) (coo : PJ_COORD) :
  left P = PJ_IO_UNITS_ANGULAR ->
  right P <> PJ_IO_UNITS_ANGULAR ->
  (xyz_x coo =? HUGE_VAL) = false ->
  pj_inv_finalize P coo = run_steps (finalize_steps P) coo.
Proof.
  intros Hl Hr Hx.
  assert (Hrun : pj_inv_finalize P coo =
                 (r <- finalize_geographic P coo ;;
                  if snd r then ret (fst r) else finalize_geocentric P (fst r))).
  { unfold pj_inv_finalize. rewrite Hx, Hl. now destruct (right P). }
  rewrite Hrun, finalize_geographic_run. cbv zeta.
  unfold finalize_steps.
  set (c1 := set_v0 coo (lp_lam coo + from_greenwich P + lam0 P)).
  set (c2 := if negb (over P) then set_v0 c1 (adjlon (lp_lam c1)) else c1).
  rewrite (run_steps_quiet (add_central_meridian P) _ coo c1 eq_refl).
  assert (Hnorm : normalize_longitude P c1 = (Continue c2, []))
    by (unfold normalize_longitude; subst c2; destruct (over P); reflexivity).
  rewrite (run_steps_quiet (normalize_longitude P) _ c1 c2 Hnorm).
  set (vg := if is_some (vgridshift P)
             then trans VGRIDSHIFT (vgridshift P) PJ_INV c2 else ret c2).
  assert (Hvg : vertical_shift_inverse P c2 = (Continue (fst vg), snd vg))
    by (unfold vertical_shift_inverse; subst vg; destruct (vgridshift P); reflexivity).
  rewrite (run_steps_continue (vertical_shift_inverse P) _ c2 _ _ Hvg).
  rewrite bind_pair.
  apply bind_ext. intros c3.
  rewrite run_steps_check.
  destruct (lp_lam c3 =? HUGE_VAL); [reflexivity|].
  rewrite (run_steps_continue (horizontal_correction P) _ c3 _ _
             (horizontal_correction_run P c3)).
  unfold value, trace. rewrite bind_pair.
  apply bind_ext. intros c4.
  rewrite run_steps_check.
  destruct (lp_lam c4 =? HUGE_VAL); [reflexivity|].
  cbn [run_steps]. unfold back_to_geocentric, finalize_geocentric, geocentric_latitude.
  destruct (geoc P); cbn [fst snd app]; reflexivity.
Qed.

(** *** The sentinel checks *)

Lemma prepare_check_passed (P : descriptor) (coo : PJ_COORD) :
  (xyz_x coo =? HUGE_VAL) = false ->
  ~ In (ev_errno PJD_ERR_INVALID_X_OR_Y) (trace (pj_inv_prepare P coo)).
Proof.
  intros Hx. rewrite (prepare_run P coo Hx).
  unfold bind, trace. cbn [snd]. intros Hin. apply in_app_or in Hin.
  destruct Hin as [Hin | Hin].
  - revert Hin. apply no_errno_not_in, axisswap_no_errno.
  - revert Hin.
    unfold prepare_units, prepare_angular, prepare_cartesian, prepare_projected.
    destruct (right P); try (apply no_errno_not_in; reflexivity).
    + apply no_errno_not_in. case_step; reflexivity.
    + case_step.
      * unfold bind, proj_errno_set, ret. cbn [fst snd app].
        intros [Heq | []]. discriminate.
      * apply no_errno_not_in, geographic_no_errno.
Qed.

Lemma finalize_check_passed (P : descriptor) (coo : PJ_COORD) :
  (xyz_x coo =? HUGE_VAL) = false ->
  ~ In (ev_errno PJD_ERR_INVALID_X_OR_Y) (trace (pj_inv_finalize P coo)).
Proof.
  intros Hx. apply no_errno_not_in. unfold pj_inv_finalize. rewrite Hx.
  destruct (left P); try reflexivity.
  destruct (right P);
    try (apply finalize_geocentric_no_event; reflexivity);
    (apply no_event_bind;
     [apply finalize_geographic_no_event; reflexivity | intro r];
     case_step; [reflexivity | apply finalize_geocentric_no_event; reflexivity]).
Qed.

(** An entry point whose coordinate passes the check after Prepare and the
    check after the transform runs Finalize on the transform's result. *)
Lemma entry_body_passes
    (dispatch : descriptor -> PJ_COORD -> M (option PJ_COORD))
    (P : descriptor) (coo c : PJ_COORD) :
  let pre := entry_prepare P coo in
  let dis := dispatch P (value pre) in
  (HUGE_VAL =? v0 (value pre)) = false ->
  value dis = Some c ->
  (HUGE_VAL =? v0 c) = false ->
  entry_body dispatch P coo =
    (value (entry_finalize P c),
     trace pre ++ trace dis ++ trace (entry_finalize P c)) /\
  ~ In (ev_errno PJD_ERR_INVALID_X_OR_Y) (trace (entry_finalize P c)).
Proof.
  intros pre dis Hpre Hdis Hc. split.
  - unfold entry_body. fold pre. unfold bind, value, trace in *.
    cbn [fst snd]. rewrite Hpre. fold dis. rewrite Hdis, Hc.
    reflexivity.
  - unfold entry_finalize. destruct (skip_inv_finalize P); cbn [negb].
    + intros [].
    + apply finalize_check_passed. now rewrite float_eqb_sym.
Qed.

(** With angular input and no axis swap, a latitude that is the sentinel
    fails the range check of Prepare. *)
Lemma sentinel_latitude_rejected (P : descriptor) (coo : PJ_COORD) :
  right P = PJ_IO_UNITS_ANGULAR ->
  axisswap P = None ->
  (xyz_x coo =? HUGE_VAL) = false ->
  lp_phi coo = HUGE_VAL ->
  pj_inv_prepare P coo =
    (proj_coord_error, [ev_errno PJD_ERR_LAT_OR_LON_EXCEED_LIMIT]).
Proof.
  intros Hr Hax Hx Hphi.
  rewrite (prepare_run P coo Hx).
  unfold apply_axisswap. rewrite Hax. cbn [is_some]. rewrite bind_ret_l.
  unfold prepare_units, prepare_angular. rewrite Hr.
  assert (Hlim : lat_or_lon_exceed_limit (helmert_defaults P coo) = true).
  { unfold lat_or_lon_exceed_limit.
    rewrite (proj2 (helmert_defaults_xy P coo)), Hphi. reflexivity. }
  now rewrite Hlim.
Qed.

Lemma entry_body_sentinel_latitude
    (dispatch : descriptor -> PJ_COORD -> M (option PJ_COORD))
    (P : descriptor) (coo : PJ_COORD) :
  right P = PJ_IO_UNITS_ANGULAR ->
  skip_inv_prepare P = false ->
  axisswap P = None ->
  (xyz_x coo =? HUGE_VAL) = false ->
  lp_phi coo = HUGE_VAL ->
  entry_body dispatch P coo =
    (proj_coord_error, [ev_errno PJD_ERR_LAT_OR_LON_EXCEED_LIMIT]).
Proof.
  intros Hr Hskip Hax Hx Hphi.
  unfold entry_body, entry_prepare. rewrite Hskip. cbn [negb].
  rewrite (sentinel_latitude_rejected P coo Hr Hax Hx Hphi).
  reflexivity.
Qed.

(** C10, amended.  Every sentinel check looks at the first component
    only.  The entry checks of Prepare and of Finalize do not set
    [PJD_ERR_INVALID_X_OR_Y] when the first component of their argument is
    not the sentinel; and an entry point goes through dispatch and Finalize
    as soon as the first component is not the sentinel after Prepare and
    after the transform.  No condition bears on the other components, which
    may be the sentinel.  A sentinel second component is stopped by the
    range check instead when it is checked as a latitude: with angular
    input units, Prepare not skipped and no axis swap, an input whose first
    component is not the sentinel and whose second is fails with
    [PJD_ERR_LAT_OR_LON_EXCEED_LIMIT], and the entry point returns the
    error coordinate without calling a transform. *)
Theorem sentinel_checks_first_component (P : descriptor) :
  (forall coo : PJ_COORD, (xyz_x coo =? HUGE_VAL) = false ->
     ~ In (ev_errno PJD_ERR_INVALID_X_OR_Y) (trace (pj_inv_prepare P coo))) /\
  (forall coo : PJ_COORD, (xyz_x coo =? HUGE_VAL) = false ->
     ~ In (ev_errno PJD_ERR_INVALID_X_OR_Y) (trace (pj_inv_finalize P coo))) /\
  (forall (xy : XY) (c : PJ_COORD),
     let pre := entry_prepare P (set_xy coo_zero xy) in
     let dis := dispatch_inv P (value pre) in
     (HUGE_VAL =? v0 (value pre)) = false ->
     value dis = Some c ->
     (HUGE_VAL =? v0 c) = false ->
     pj_inv xy P =
       (coo_lp (value (entry_finalize P c)),
        trace pre ++ trace dis ++ trace (entry_finalize P c)) /\
     ~ In (ev_errno PJD_ERR_INVALID_X_OR_Y) (trace (entry_finalize P c))) /\
  (forall (xyz : XYZ) (c : PJ_COORD),
     let pre := entry_prepare P (set_xyz coo_zero xyz) in
     let dis := dispatch_inv3d P (value pre) in
     (HUGE_VAL =? v0 (value pre)) = false ->
     value dis = Some c ->
     (HUGE_VAL =? v0 c) = false ->
     pj_inv3d xyz P =
       (coo_lpz (value (entry_finalize P c)),
        trace pre ++ trace dis ++ trace (entry_finalize P c)) /\
     ~ In (ev_errno PJD_ERR_INVALID_X_OR_Y) (trace (entry_finalize P c))) /\
  (forall coo c : PJ_COORD,
     let pre := entry_prepare P coo in
     let dis := dispatch_inv4d P (value pre) in
     (HUGE_VAL =? v0 (value pre)) = false ->
     value dis = Some c ->
     (HUGE_VAL =? v0 c) = false ->
     pj_inv4d coo P =
       (value (entry_finalize P c),
        trace pre ++ trace dis ++ trace (entry_finalize P c)) /\
     ~ In (ev_errno PJD_ERR_INVALID_X_OR_Y) (trace (entry_finalize P c))) /\
  (right P = PJ_IO_UNITS_ANGULAR ->
   skip_inv_prepare P = false ->
   axisswap P = None ->
   (forall xy : XY,
      (fst xy =? HUGE_VAL) = false -> snd xy = HUGE_VAL ->
      pj_inv xy P =
        (coo_lp proj_coord_error, [ev_errno PJD_ERR_LAT_OR_LON_EXCEED_LIMIT])) /\
   (forall xyz : XYZ,
      (fst (fst xyz) =? HUGE_VAL) = false -> snd (fst xyz) = HUGE_VAL ->
      pj_inv3d xyz P =
        (coo_lpz proj_coord_error, [ev_errno PJD_ERR_LAT_OR_LON_EXCEED_LIMIT])) /\
   (forall coo : PJ_COORD,
      (xyz_x coo =? HUGE_VAL) = false -> lp_phi coo = HUGE_VAL ->
      pj_inv4d coo P =
        (proj_coord_error, [ev_errno PJD_ERR_LAT_OR_LON_EXCEED_LIMIT]))).
Proof.
  split; [exact (prepare_check_passed P)|].
  split; [exact (finalize_check_passed P)|].
  split; [|split; [|split]].
  - intros xy c pre dis Hpre Hdis Hc.
    destruct (entry_body_passes dispatch_inv P _ c Hpre Hdis Hc) as [Hrun Hno].
    split; [|exact Hno].
    unfold pj_inv. rewrite Hrun. unfold bind, ret, value, trace.
    cbn [fst snd]. now rewrite app_nil_r.
  - intros xyz c pre dis Hpre Hdis Hc.
    destruct (entry_body_passes dispatch_inv3d P _ c Hpre Hdis Hc) as [Hrun Hno].
    split; [|exact Hno].
    unfold pj_inv3d. rewrite Hrun. unfold bind, ret, value, trace.
    cbn [fst snd]. now rewrite app_nil_r.
  - intros coo c pre dis Hpre Hdis Hc.
    exact (entry_body_passes dispatch_inv4d P coo c Hpre Hdis Hc).
  - intros Hr Hskip Hax. split; [|split].
    + intros xy Hx Hy. unfold pj_inv.
      rewrite (entry_body_sentinel_latitude dispatch_inv P (set_xy coo_zero xy)
                 Hr Hskip Hax Hx Hy).
      reflexivity.
    + intros xyz Hx Hy. unfold pj_inv3d.
      rewrite (entry_body_sentinel_latitude dispatch_inv3d P (set_xyz coo_zero xyz)
                 Hr Hskip Hax Hx Hy).
      reflexivity.
    + intros coo Hx Hy.
      exact (entry_body_sentinel_latitude dispatch_inv4d P coo Hr Hskip Hax Hx Hy).
Qed.

End Properties.

(** * Further properties of the stages and of the entry points *)

Section Stages.
Context {E : Externals}.

Abbreviation descriptor := (PJ PJ_sub).

Ltac split_if :=
  match goal with
  | |- context [if ?b then _ else _] => destruct b eqn:?
  end.

(** *** The error codes of Prepare and Finalize *)

(** X1.  Prepare sets [PJD_ERR_INVALID_X_OR_Y] exactly when the first
    component of its argument is the sentinel; it then does nothing else
    (no axis swap, no other sub-operation) and returns the error
    coordinate. *)
Theorem prepare_invalid_coordinate (P : descriptor) (coo : PJ_COORD) :
  (In (ev_errno PJD_ERR_INVALID_X_OR_Y) (trace (pj_inv_prepare P coo))
     <-> (xyz_x coo =? HUGE_VAL) = true) /\
  ((xyz_x coo =? HUGE_VAL) = true ->
     pj_inv_prepare P coo = (proj_coord_error, [ev_errno PJD_ERR_INVALID_X_OR_Y])).
Proof.
  assert (Hyes : (xyz_x coo =? HUGE_VAL) = true ->
                 pj_inv_prepare P coo
                 = (proj_coord_error, [ev_errno PJD_ERR_INVALID_X_OR_Y])).
  { intros Hx. unfold pj_inv_prepare. now rewrite Hx. }
  split; [split | exact Hyes].
  - intros Hin. destruct (xyz_x coo =? HUGE_VAL) eqn:Hx; [reflexivity|].
    now elim (prepare_check_passed P coo Hx).
  - intros Hx. rewrite (Hyes Hx). now left.
Qed.

(** X2.  The only error code Finalize ever sets is
    [PJD_ERR_INVALID_X_OR_Y], it sets it exactly when the first component
    of its argument is the sentinel, and it then calls nothing and returns
    the error coordinate. *)
Theorem finalize_invalid_coordinate (P : descriptor) (coo : PJ_COORD) :
  existsb is_errno_event (trace (pj_inv_finalize P coo)) = (xyz_x coo =? HUGE_VAL) /\
  (forall e, In (ev_errno e) (trace (pj_inv_finalize P coo)) ->
     e = PJD_ERR_INVALID_X_OR_Y) /\
  ((xyz_x coo =? HUGE_VAL) = true ->
     pj_inv_finalize P coo = (proj_coord_error, [ev_errno PJD_ERR_INVALID_X_OR_Y])).
Proof.
  assert (Hno : (xyz_x coo =? HUGE_VAL) = false ->
                existsb is_errno_event (trace (pj_inv_finalize P coo)) = false).
  { intros Hx. unfold pj_inv_finalize. rewrite Hx.
    destruct (left P); try reflexivity.
    destruct (right P);
      try (apply finalize_geocentric_no_event; reflexivity);
      (apply no_event_bind;
       [apply finalize_geographic_no_event; reflexivity | intro r];
       split_if; [reflexivity | apply finalize_geocentric_no_event; reflexivity]). }
  assert (Hyes : (xyz_x coo =? HUGE_VAL) = true ->
                 pj_inv_finalize P coo
                 = (proj_coord_error, [ev_errno PJD_ERR_INVALID_X_OR_Y])).
  { intros Hx. unfold pj_inv_finalize. now rewrite Hx. }
  destruct (xyz_x coo =? HUGE_VAL) eqn:Hx.
  - rewrite (Hyes eq_refl). repeat split.
    intros e [Heq | []]. now injection Heq as <-.
  - repeat split; [now apply Hno | | discriminate].
    intros e Hin. now elim (no_errno_not_in _ e (Hno eq_refl)).
Qed.

(** Prepare sets no error code at all, or it ends on one and returns the
    error coordinate. *)
Lemma prepare_errno_shape (P : descriptor) (coo : PJ_COORD) :
  existsb is_errno_event (trace (pj_inv_prepare P coo)) = false \/
  (value (pj_inv_prepare P coo) = proj_coord_error /\
   exists pre e,
     trace (pj_inv_prepare P coo) = pre ++ [ev_errno e] /\
     existsb is_errno_event pre = false /\
     (e = PJD_ERR_INVALID_X_OR_Y \/ e = PJD_ERR_LAT_OR_LON_EXCEED_LIMIT)).
Proof.
  destruct (xyz_x coo =? HUGE_VAL) eqn:Hx.
  - right. unfold pj_inv_prepare. rewrite Hx. split; [reflexivity|].
    exists [], PJD_ERR_INVALID_X_OR_Y. repeat split. now left.
  - pose proof (axisswap_no_errno P (helmert_defaults P coo)) as Hswap.
    destruct (right P) eqn:Hr.
    5: { destruct (range_check_limit P coo Hr Hx) as [_ Hyes].
         destruct (exceeds_limit
                     (value (apply_axisswap P (helmert_defaults P coo)))) eqn:Hlim.
         - right. rewrite (Hyes eq_refl). split; [reflexivity|].
           eexists. exists PJD_ERR_LAT_OR_LON_EXCEED_LIMIT.
           split; [reflexivity|]. split; [exact Hswap | now right].
         - left. rewrite (prepare_angular_run P coo Hr Hx).
           unfold prepare_angular. rewrite lat_or_lon_exceed_limit_abs, Hlim.
           unfold trace in *. cbn [snd]. rewrite existsb_app, Hswap.
           apply geographic_no_errno. }
    all: left; rewrite (prepare_run P coo Hx);
      apply no_event_bind; [exact Hswap | intro c];
      unfold prepare_units, prepare_cartesian, prepare_projected; rewrite Hr;
      try reflexivity; split_if; reflexivity.
Qed.

(** X3.  An error code set by Prepare is the invalid-coordinate or the
    range-limit code; it is the last event of the run and the only error
    code of the run, the error code left behind is that one, and the value
    returned is the error coordinate. *)
Theorem prepare_error_is_final (P : descriptor) (coo : PJ_COORD) (e : pj_errno) :
  In (ev_errno e) (trace (pj_inv_prepare P coo)) ->
  (e = PJD_ERR_INVALID_X_OR_Y \/ e = PJD_ERR_LAT_OR_LON_EXCEED_LIMIT) /\
  value (pj_inv_prepare P coo) = proj_coord_error /\
  proj_errno (trace (pj_inv_prepare P coo)) = Some e /\
  exists pre,
    trace (pj_inv_prepare P coo) = pre ++ [ev_errno e] /\
    existsb is_errno_event pre = false.
Proof.
  intros Hin.
  destruct (prepare_errno_shape P coo) as [Hno | (Hval & pre & e' & Ht & Hpre & He')].
  - now elim (no_errno_not_in _ e Hno).
  - rewrite Ht in Hin. apply in_app_or in Hin.
    destruct Hin as [Hin | [Heq | []]].
    + now elim (no_errno_not_in _ e Hpre).
    + injection Heq as <-. split; [exact He'|]. split; [exact Hval|].
      rewrite Ht. split; [apply proj_errno_last|].
      exists pre. now split.
Qed.

(** *** The entry points, case by case *)

Lemma dispatch_spec_shape (P : descriptor) (d : dimensionality) (coo : PJ_COORD) :
  dispatch_spec P d coo = (None, [ev_errno EINVAL]) \/
  exists c ev,
    dispatch_spec P d coo = (Some c, [ev]) /\
    is_core_event ev = true /\ is_errno_event ev = false.
Proof.
  unfold dispatch_spec.
  destruct d; cbn [fallback_order first_implementation implementation];
    destruct (inv P), (inv3d P), (inv4d P); cbn [option_map];
    try (left; reflexivity);
    right; cbn [fst snd]; eexists; eexists; repeat split.
Qed.

(** The four ways through an entry point: stopped after Prepare, stopped
    for want of a transform, stopped after the transform, or finalized. *)
Lemma entry_body_cases (d : dimensionality)
    (dispatch : descriptor -> PJ_COORD -> M (option PJ_COORD))
    (P : descriptor) (coo : PJ_COORD) :
  (forall c, dispatch P c = dispatch_spec P d c) ->
  let pre := entry_prepare P coo in
  ((HUGE_VAL =? v0 (value pre)) = true /\
   entry_body dispatch P coo = (proj_coord_error, trace pre)) \/
  ((HUGE_VAL =? v0 (value pre)) = false /\
   existsb is_errno_event (trace pre) = false /\
   (entry_body dispatch P coo = (proj_coord_error, trace pre ++ [ev_errno EINVAL]) \/
    exists c ev,
      dispatch P (value pre) = (Some c, [ev]) /\ is_core_event ev = true /\
      (((HUGE_VAL =? v0 c) = true /\
        entry_body dispatch P coo = (proj_coord_error, trace pre ++ [ev])) \/
       ((HUGE_VAL =? v0 c) = false /\
        existsb is_errno_event (trace (entry_finalize P c)) = false /\
        entry_body dispatch P coo =
          (value (entry_finalize P c), trace pre ++ ev :: trace (entry_finalize P c)))))).
Proof.
  intros Hd pre. unfold entry_body. fold pre.
  unfold bind, value, trace. cbn [fst snd].
  destruct (HUGE_VAL =? v0 (fst pre)) eqn:Hpre.
  - left. split; [reflexivity|]. cbn [ret fst snd]. now rewrite app_nil_r.
  - right. split; [reflexivity|].
    assert (Hquiet : existsb is_errno_event (snd pre) = false).
    { subst pre. unfold entry_prepare in *.
      destruct (skip_inv_prepare P); cbn [negb] in *; [reflexivity|].
      destruct (prepare_errno_shape P coo) as [Hno | [Hval _]]; [exact Hno|].
      unfold value in Hval. rewrite Hval in Hpre. discriminate. }
    split; [exact Hquiet|].
    rewrite Hd.
    destruct (dispatch_spec_shape P d (fst pre)) as [Hnone | (c & ev & Hsome & Hcore & _)].
    + left. rewrite Hnone. unfold ret. cbn [fst snd]. now rewrite app_nil_r.
    + right. exists c, ev. split; [exact Hsome|]. split; [exact Hcore|].
      rewrite Hsome. cbn [fst snd app].
      destruct (HUGE_VAL =? v0 c) eqn:Hc.
      * left. split; [reflexivity|]. reflexivity.
      * right. split; [reflexivity|]. split; [|reflexivity].
        unfold entry_finalize. destruct (skip_inv_finalize P); cbn [negb]; [reflexivity|].
        unfold pj_inv_finalize. rewrite float_eqb_sym, Hc.
        destruct (left P); try reflexivity.
        destruct (right P);
          try (apply finalize_geocentric_no_event; reflexivity);
          (apply no_event_bind;
           [apply finalize_geographic_no_event; reflexivity | intro r];
           split_if; [reflexivity | apply finalize_geocentric_no_event; reflexivity]).
Qed.

Lemma pj_inv_body (xy : XY) (P : descriptor) :
  pj_inv xy P =
    (coo_lp (value (entry_body dispatch_inv P (set_xy coo_zero xy))),
     trace (entry_body dispatch_inv P (set_xy coo_zero xy))).
Proof. unfold pj_inv, bind, ret, value, trace. cbn [fst snd]. now rewrite app_nil_r. Qed.

Lemma pj_inv3d_body (xyz : XYZ) (P : descriptor) :
  pj_inv3d xyz P =
    (coo_lpz (value (entry_body dispatch_inv3d P (set_xyz coo_zero xyz))),
     trace (entry_body dispatch_inv3d P (set_xyz coo_zero xyz))).
Proof. unfold pj_inv3d, bind, ret, value, trace. cbn [fst snd]. now rewrite app_nil_r. Qed.

Lemma dispatch_inv_spec (P : descriptor) (c : PJ_COORD) :
  dispatch_inv P c = dispatch_spec P D2 c.
Proof. apply dispatch_chains. Qed.

Lemma dispatch_inv3d_spec (P : descriptor) (c : PJ_COORD) :
  dispatch_inv3d P c = dispatch_spec P D3 c.
Proof. apply dispatch_chains. Qed.

Lemma dispatch_inv4d_spec (P : descriptor) (c : PJ_COORD) :
  dispatch_inv4d P c = dispatch_spec P D4 c.
Proof. apply dispatch_chains. Qed.

Lemma existsb_app_false (f : event -> bool) (t1 t2 : list event) :
  existsb f (t1 ++ t2) = false -> existsb f t1 = false /\ existsb f t2 = false.
Proof. rewrite existsb_app. apply orb_false_iff. Qed.

(** An error code set during an entry point ends the run. *)
Lemma entry_body_error (d : dimensionality)
    (dispatch : descriptor -> PJ_COORD -> M (option PJ_COORD))
    (P : descriptor) (coo : PJ_COORD) (e : pj_errno) :
  (forall c, dispatch P c = dispatch_spec P d c) ->
  In (ev_errno e) (trace (entry_body dispatch P coo)) ->
  value (entry_body dispatch P coo) = proj_coord_error /\
  exists pre,
    trace (entry_body dispatch P coo) = pre ++ [ev_errno e] /\
    existsb is_errno_event pre = false /\
    existsb is_core_event pre = false.
Proof.
  intros Hd Hin.
  pose proof (entry_prepare_no_core P coo) as Hcore.
  destruct (entry_body_cases d dispatch P coo Hd)
    as [[Hpre Hrun] | (Hpre & Hquiet & [Hrun | (c & ev & Hdis & Hev & Hc)])].
  - rewrite Hrun in *. unfold value, trace in *. cbn [fst snd] in *.
    split; [reflexivity|].
    unfold entry_prepare in *. destruct (skip_inv_prepare P); cbn [negb] in *.
    + destruct Hin.
    + destruct (prepare_errno_shape P coo)
        as [Hno | (_ & pre & e' & Ht & Hnoerr & _)]; unfold trace in *.
      * now elim (no_errno_not_in _ e Hno).
      * rewrite Ht in *. apply in_app_or in Hin.
        destruct Hin as [Hin | [Heq | []]].
        -- now elim (no_errno_not_in _ e Hnoerr).
        -- injection Heq as <-. exists pre. split; [reflexivity|].
           split; [exact Hnoerr|]. now apply existsb_app_false in Hcore.
  - rewrite Hrun in *. unfold value, trace in *. cbn [fst snd] in *.
    split; [reflexivity|]. apply in_app_or in Hin.
    destruct Hin as [Hin | [Heq | []]].
    + now elim (no_errno_not_in _ e Hquiet).
    + injection Heq as <-. eexists. split; [reflexivity|]. now split.
  - exfalso. destruct Hc as [[_ Hrun] | (_ & Hfin & Hrun)];
      rewrite Hrun in Hin; unfold value, trace in *; cbn [fst snd] in Hin;
      apply in_app_or in Hin; destruct Hin as [Hin | Hin];
      try (now apply (no_errno_not_in _ e Hquiet)).
    + destruct Hin as [Heq | []]. subst ev. discriminate.
    + destruct Hin as [Heq | Hin]; [subst ev; discriminate|].
      now apply (no_errno_not_in _ e Hfin).
Qed.

(** X4.  In each entry point an error code, once set, ends the run: it is
    the last event and the only error code, no transform was called before
    it, the error code left behind is that one, and the entry point returns
    the error coordinate. *)
Theorem entry_error_is_final (P : descriptor) (e : pj_errno) :
  (forall xy : XY,
     In (ev_errno e) (trace (pj_inv xy P)) ->
     value (pj_inv xy P) = coo_lp proj_coord_error /\
     proj_errno (trace (pj_inv xy P)) = Some e /\
     exists pre, trace (pj_inv xy P) = pre ++ [ev_errno e] /\
       existsb is_errno_event pre = false /\ existsb is_core_event pre = false) /\
  (forall xyz : XYZ,
     In (ev_errno e) (trace (pj_inv3d xyz P)) ->
     value (pj_inv3d xyz P) = coo_lpz proj_coord_error /\
     proj_errno (trace (pj_inv3d xyz P)) = Some e /\
     exists pre, trace (pj_inv3d xyz P) = pre ++ [ev_errno e] /\
       existsb is_errno_event pre = false /\ existsb is_core_event pre = false) /\
  (forall coo : PJ_COORD,
     In (ev_errno e) (trace (pj_inv4d coo P)) ->
     value (pj_inv4d coo P) = proj_coord_error /\
     proj_errno (trace (pj_inv4d coo P)) = Some e /\
     exists pre, trace (pj_inv4d coo P) = pre ++ [ev_errno e] /\
       existsb is_errno_event pre = false /\ existsb is_core_event pre = false).
Proof.
  split; [|split].
  - intros xy. rewrite pj_inv_body. intros Hin.
    unfold value, trace in Hin |- *. cbn [fst snd] in Hin |- *.
    destruct (entry_body_error D2 dispatch_inv P _ e (dispatch_inv_spec P) Hin)
      as (Hval & pre & Ht & Hpre).
    unfold value, trace in Hval, Ht. rewrite Hval, Ht.
    split; [reflexivity|]. split; [apply proj_errno_last|]. now exists pre.
  - intros xyz. rewrite pj_inv3d_body. intros Hin.
    unfold value, trace in Hin |- *. cbn [fst snd] in Hin |- *.
    destruct (entry_body_error D3 dispatch_inv3d P _ e (dispatch_inv3d_spec P) Hin)
      as (Hval & pre & Ht & Hpre).
    unfold value, trace in Hval, Ht. rewrite Hval, Ht.
    split; [reflexivity|]. split; [apply proj_errno_last|]. now exists pre.
  - intros coo Hin. unfold pj_inv4d in *.
    destruct (entry_body_error D4 dispatch_inv4d P _ e (dispatch_inv4d_spec P) Hin)
      as (Hval & pre & Ht & Hpre).
    split; [exact Hval|]. rewrite Ht.
    split; [apply proj_errno_last|]. now exists pre.
Qed.

Lemma entry_body_invalid (d : dimensionality)
    (dispatch : descriptor -> PJ_COORD -> M (option PJ_COORD))
    (P : descriptor) (coo : PJ_COORD) :
  (forall c, dispatch P c = dispatch_spec P d c) ->
  In (ev_errno PJD_ERR_INVALID_X_OR_Y) (trace (entry_body dispatch P coo)) <->
  skip_inv_prepare P = false /\ (xyz_x coo =? HUGE_VAL) = true.
Proof.
  intros Hd. split.
  - intros Hin.
    destruct (skip_inv_prepare P) eqn:Hskip, (xyz_x coo =? HUGE_VAL) eqn:Hx;
      try (split; reflexivity); exfalso.
    all: assert (Hpre : ~ In (ev_errno PJD_ERR_INVALID_X_OR_Y)
                          (trace (entry_prepare P coo)))
      by (unfold entry_prepare; rewrite Hskip; cbn [negb];
          first [ now apply prepare_check_passed | intros [] ]).
    all: destruct (entry_body_cases d dispatch P coo Hd)
      as [[_ Hrun] | (_ & _ & [Hrun | (c & ev & _ & Hev & Hc)])].
    all: try (rewrite Hrun in Hin; unfold trace in *; cbn [snd] in Hin;
              try apply in_app_or in Hin; try destruct Hin as [Hin | [Heq | []]];
              solve [now apply Hpre | discriminate]).
    all: destruct Hc as [[_ Hrun] | (_ & Hfin & Hrun)];
      rewrite Hrun in Hin; unfold trace in *; cbn [snd] in Hin;
      apply in_app_or in Hin; destruct Hin as [Hin | Hin]; try (now apply Hpre).
    all: destruct Hin as [Heq | Hin]; try (subst ev; discriminate);
      try destruct Hin;
      try (now apply (no_errno_not_in _ PJD_ERR_INVALID_X_OR_Y Hfin)).
  - intros [Hskip Hx].
    unfold entry_body, entry_prepare, pj_inv_prepare. rewrite Hskip, Hx.
    cbn [negb]. unfold bind, proj_errno_set, ret, trace. cbn [fst snd app].
    now left.
Qed.

(** X5.  In an entry point the invalid-coordinate code comes from Prepare
    alone: it is set exactly when Prepare is not skipped and the first
    component of the input is the sentinel.  The sentinel check at the
    start of Finalize never fires there, the entry point having checked the
    same component just before. *)
Theorem invalid_only_from_prepare (P : descriptor) :
  (forall xy : XY,
     In (ev_errno PJD_ERR_INVALID_X_OR_Y) (trace (pj_inv xy P)) <->
     skip_inv_prepare P = false /\ (fst xy =? HUGE_VAL) = true) /\
  (forall xyz : XYZ,
     In (ev_errno PJD_ERR_INVALID_X_OR_Y) (trace (pj_inv3d xyz P)) <->
     skip_inv_prepare P = false /\ (fst (fst xyz) =? HUGE_VAL) = true) /\
  (forall coo : PJ_COORD,
     In (ev_errno PJD_ERR_INVALID_X_OR_Y) (trace (pj_inv4d coo P)) <->
     skip_inv_prepare P = false /\ (xyz_x coo =? HUGE_VAL) = true).
Proof.
  split; [|split].
  - intros xy. rewrite pj_inv_body. unfold trace at 1. cbn [snd].
    exact (entry_body_invalid D2 dispatch_inv P _ (dispatch_inv_spec P)).
  - intros xyz. rewrite pj_inv3d_body. unfold trace at 1. cbn [snd].
    exact (entry_body_invalid D3 dispatch_inv3d P _ (dispatch_inv3d_spec P)).
  - intros coo.
    exact (entry_body_invalid D4 dispatch_inv4d P coo (dispatch_inv4d_spec P)).
Qed.

(** The transform calls of a run: none, and the error coordinate is
    returned; or one, and no error code is set. *)
Lemma entry_body_calls (d : dimensionality)
    (dispatch : descriptor -> PJ_COORD -> M (option PJ_COORD))
    (P : descriptor) (coo : PJ_COORD) :
  (forall c, dispatch P c = dispatch_spec P d c) ->
  (filter is_core_event (trace (entry_body dispatch P coo)) = [] /\
   value (entry_body dispatch P coo) = proj_coord_error) \/
  (exists ev,
     filter is_core_event (trace (entry_body dispatch P coo)) = [ev] /\
     existsb is_errno_event (trace (entry_body dispatch P coo)) = false).
Proof.
  intros Hd.
  pose proof (filter_core_none _ (entry_prepare_no_core P coo)) as Hpre.
  destruct (entry_body_cases d dispatch P coo Hd)
    as [[_ Hrun] | (_ & Hquiet & [Hrun | (c & ev & Hdis & Hev & Hc)])].
  - left. rewrite Hrun. now split.
  - left. rewrite Hrun. unfold value, trace in *. cbn [fst snd].
    rewrite filter_app, Hpre. now split.
  - right. exists ev.
    assert (Hnoerr : is_errno_event ev = false) by (destruct ev; try discriminate; reflexivity).
    destruct Hc as [[_ Hrun] | (_ & Hfin & Hrun)]; rewrite Hrun;
      unfold value, trace in *; cbn [fst snd].
    + rewrite filter_app, Hpre, existsb_app, Hquiet. cbn [filter existsb app].
      rewrite Hev, Hnoerr. now split.
    + rewrite filter_app, Hpre, existsb_app, Hquiet. cbn [filter existsb app].
      rewrite Hev, Hnoerr, Hfin.
      pose proof (filter_core_none _ (entry_finalize_no_core P c)) as Hf.
      unfold trace in Hf. rewrite Hf. now split.
Qed.

(** X6.  An entry point calls a transform implementation at most once; and
    a result whose first component is not the sentinel comes from a run
    with exactly one transform call and no error code. *)
Theorem at_most_one_transform_call (P : descriptor) :
  (forall xy : XY,
     (length (filter is_core_event (trace (pj_inv xy P))) <= 1)%nat /\
     ((HUGE_VAL =? fst (value (pj_inv xy P))) = false ->
        length (filter is_core_event (trace (pj_inv xy P))) = 1%nat /\
        existsb is_errno_event (trace (pj_inv xy P)) = false)) /\
  (forall xyz : XYZ,
     (length (filter is_core_event (trace (pj_inv3d xyz P))) <= 1)%nat /\
     ((HUGE_VAL =? fst (fst (value (pj_inv3d xyz P)))) = false ->
        length (filter is_core_event (trace (pj_inv3d xyz P))) = 1%nat /\
        existsb is_errno_event (trace (pj_inv3d xyz P)) = false)) /\
  (forall coo : PJ_COORD,
     (length (filter is_core_event (trace (pj_inv4d coo P))) <= 1)%nat /\
     ((HUGE_VAL =? v0 (value (pj_inv4d coo P))) = false ->
        length (filter is_core_event (trace (pj_inv4d coo P))) = 1%nat /\
        existsb is_errno_event (trace (pj_inv4d coo P)) = false)).
Proof.
  split; [|split].
  - intros xy. rewrite pj_inv_body. unfold value, trace. cbn [fst snd].
    destruct (entry_body_calls D2 dispatch_inv P (set_xy coo_zero xy)
                (dispatch_inv_spec P)) as [[Hf Hv] | (ev & Hf & Hno)];
      unfold value, trace in *; rewrite Hf.
    + split; [repeat constructor|]. rewrite Hv. discriminate.
    + split; [constructor | intros _; now split].
  - intros xyz. rewrite pj_inv3d_body. unfold value, trace. cbn [fst snd].
    destruct (entry_body_calls D3 dispatch_inv3d P (set_xyz coo_zero xyz)
                (dispatch_inv3d_spec P)) as [[Hf Hv] | (ev & Hf & Hno)];
      unfold value, trace in *; rewrite Hf.
    + split; [repeat constructor|]. rewrite Hv. discriminate.
    + split; [constructor | intros _; now split].
  - intros coo. unfold pj_inv4d.
    destruct (entry_body_calls D4 dispatch_inv4d P coo
                (dispatch_inv4d_spec P)) as [[Hf Hv] | (ev & Hf & Hno)];
      rewrite Hf.
    + split; [repeat constructor|]. rewrite Hv. discriminate.
    + split; [constructor | intros _; now split].
Qed.

(** *** Failing stages *)

Lemma entry_body_stops
    (dispatch : descriptor -> PJ_COORD -> M (option PJ_COORD))
    (P : descriptor) (coo : PJ_COORD) :
  let pre := entry_prepare P coo in
  let dis := dispatch P (value pre) in
  ((HUGE_VAL =? v0 (value pre)) = true ->
     entry_body dispatch P coo = (proj_coord_error, trace pre)) /\
  (forall c, (HUGE_VAL =? v0 (value pre)) = false ->
     value dis = Some c -> (HUGE_VAL =? v0 c) = true ->
     entry_body dispatch P coo = (proj_coord_error, trace pre ++ trace dis)).
Proof.
  intros pre dis. split.
  - intros Hpre. unfold entry_body. fold pre.
    unfold bind, value, trace in *. cbn [fst snd]. rewrite Hpre.
    cbn [ret fst snd]. now rewrite app_nil_r.
  - intros c Hpre Hdis Hc. unfold entry_body. fold pre.
    unfold bind, value, trace in *. cbn [fst snd]. rewrite Hpre.
    fold dis. rewrite Hdis, Hc. cbn [ret fst snd]. now rewrite app_nil_r.
Qed.

(** X7.  A stage that fails silently stops the entry point.  When the
    first component is the sentinel after Prepare (a sub-operation may have
    produced it without any error code), no transform is called; when the
    transform returns the sentinel as first component, Finalize is not run
    and no error code is set.  In both cases the entry point returns the
    error coordinate, all components the sentinel, and not the coordinate
    the failing stage produced. *)
Theorem failed_stage_stops_entry (P : descriptor) :
  (forall xy : XY,
     let pre := entry_prepare P (set_xy coo_zero xy) in
     let dis := dispatch_inv P (value pre) in
     ((HUGE_VAL =? v0 (value pre)) = true ->
        pj_inv xy P = (coo_lp proj_coord_error, trace pre)) /\
     (forall c, (HUGE_VAL =? v0 (value pre)) = false ->
        value dis = Some c -> (HUGE_VAL =? v0 c) = true ->
        pj_inv xy P = (coo_lp proj_coord_error, trace pre ++ trace dis))) /\
  (forall xyz : XYZ,
     let pre := entry_prepare P (set_xyz coo_zero xyz) in
     let dis := dispatch_inv3d P (value pre) in
     ((HUGE_VAL =? v0 (value pre)) = true ->
        pj_inv3d xyz P = (coo_lpz proj_coord_error, trace pre)) /\
     (forall c, (HUGE_VAL =? v0 (value pre)) = false ->
        value dis = Some c -> (HUGE_VAL =? v0 c) = true ->
        pj_inv3d xyz P = (coo_lpz proj_coord_error, trace pre ++ trace dis))) /\
  (forall coo : PJ_COORD,
     let pre := entry_prepare P coo in
     let dis := dispatch_inv4d P (value pre) in
     ((HUGE_VAL =? v0 (value pre)) = true ->
        pj_inv4d coo P = (proj_coord_error, trace pre)) /\
     (forall c, (HUGE_VAL =? v0 (value pre)) = false ->
        value dis = Some c -> (HUGE_VAL =? v0 c) = true ->
        pj_inv4d coo P = (proj_coord_error, trace pre ++ trace dis))).
Proof.
  split; [|split].
  - intros xy pre dis.
    destruct (entry_body_stops dispatch_inv P (set_xy coo_zero xy)) as [Ha Hb].
    fold pre in Ha, Hb. fold dis in Hb. rewrite pj_inv_body. split.
    + intros Hpre. now rewrite (Ha Hpre).
    + intros c Hpre Hdis Hc. now rewrite (Hb c Hpre Hdis Hc).
  - intros xyz pre dis.
    destruct (entry_body_stops dispatch_inv3d P (set_xyz coo_zero xyz)) as [Ha Hb].
    fold pre in Ha, Hb. fold dis in Hb. rewrite pj_inv3d_body. split.
    + intros Hpre. now rewrite (Ha Hpre).
    + intros c Hpre Hdis Hc. now rewrite (Hb c Hpre Hdis Hc).
  - intros coo. exact (entry_body_stops dispatch_inv4d P coo).
Qed.

(** *** The entry points compared *)

Lemma entry_body_ext
    (d1 d2 : descriptor -> PJ_COORD -> M (option PJ_COORD))
    (P : descriptor) (coo : PJ_COORD) :
  (forall c, d1 P c = d2 P c) ->
  entry_body d1 P coo = entry_body d2 P coo.
Proof. intros H. unfold entry_body, bind. now rewrite H. Qed.

(** X8.  The three entry points differ in the order of their dispatch
    only.  When the descriptor does not have both a 3D and a 4D transform,
    [pj_inv3d] on (x, y, z) is [pj_inv4d] on (x, y, z, 0) with the time
    dropped from the result; when it has at most one transform, [pj_inv] on
    (x, y) is [pj_inv4d] on (x, y, 0, 0) with height and time dropped.  The
    events are the same. *)
Theorem entry_points_agree (P : descriptor) :
  (inv3d P = None \/ inv4d P = None ->
   forall xyz : XYZ,
     pj_inv3d xyz P =
       (coo_lpz (value (pj_inv4d (mkCoord (fst (fst xyz)) (snd (fst xyz)) (snd xyz) 0) P)),
        trace (pj_inv4d (mkCoord (fst (fst xyz)) (snd (fst xyz)) (snd xyz) 0) P))) /\
  ((inv P = None /\ inv3d P = None) \/ (inv P = None /\ inv4d P = None) \/
   (inv3d P = None /\ inv4d P = None) ->
   forall xy : XY,
     pj_inv xy P =
       (coo_lp (value (pj_inv4d (mkCoord (fst xy) (snd xy) 0 0) P)),
        trace (pj_inv4d (mkCoord (fst xy) (snd xy) 0 0) P))).
Proof.
  split.
  - intros Hone xyz. rewrite pj_inv3d_body. unfold pj_inv4d.
    rewrite (entry_body_ext dispatch_inv3d dispatch_inv4d); [reflexivity|].
    intros c. unfold dispatch_inv3d, dispatch_inv4d.
    destruct Hone as [-> | ->]; destruct (inv P); try reflexivity;
      match goal with |- context [match ?x with _ => _ end] => destruct x end;
      reflexivity.
  - intros Hone xy. rewrite pj_inv_body. unfold pj_inv4d.
    rewrite (entry_body_ext dispatch_inv dispatch_inv4d); [reflexivity|].
    intros c. unfold dispatch_inv, dispatch_inv4d.
    destruct Hone as [[-> ->] | [[-> ->] | [-> ->]]];
      try reflexivity;
      match goal with |- context [match ?x with _ => _ end] => destruct x end;
      reflexivity.
Qed.

(** *** Closed forms of the stages *)

Lemma helmert_defaults_none (P : descriptor) (coo : PJ_COORD) :
  helmert P = None -> helmert_defaults P coo = coo.
Proof.
  intros Hh. unfold helmert_defaults. rewrite Hh. cbn [is_some].
  now rewrite !andb_false_r.
Qed.

Lemma finalize_not_angular (P : descriptor) (coo : PJ_COORD) :
  (xyz_x coo =? HUGE_VAL) = false ->
  left P <> PJ_IO_UNITS_ANGULAR ->
  pj_inv_finalize P coo = (coo, []).
Proof.
  intros Hx Hl. unfold pj_inv_finalize. rewrite Hx.
  destruct (left P); try reflexivity. now elim Hl.
Qed.

Lemma entry_finalize_not_angular (P : descriptor) (coo : PJ_COORD) :
  (HUGE_VAL =? v0 coo) = false ->
  left P <> PJ_IO_UNITS_ANGULAR ->
  entry_finalize P coo = (coo, []).
Proof.
  intros Hx Hl. unfold entry_finalize.
  destruct (skip_inv_finalize P); cbn [negb]; [reflexivity|].
  apply finalize_not_angular; [now rewrite float_eqb_sym | exact Hl].
Qed.

(** X9.  Finalize corrects nothing unless the output units are angular.
    Past its sentinel check it returns its argument untouched when the
    output units are not angular; when input and output units are both
    angular it does the geocentric latitude conversion and nothing else;
    and it calls [proj_trans] only when the output units are angular and
    the input units are not. *)
Theorem finalize_without_datum (P : descriptor) (coo : PJ_COORD) :
  ((xyz_x coo =? HUGE_VAL) = false -> left P <> PJ_IO_UNITS_ANGULAR ->
     pj_inv_finalize P coo = (coo, [])) /\
  ((xyz_x coo =? HUGE_VAL) = false ->
   left P = PJ_IO_UNITS_ANGULAR -> right P = PJ_IO_UNITS_ANGULAR ->
     pj_inv_finalize P coo =
       if geoc P
       then (proj_geocentric_latitude P PJ_FWD coo,
             [ev_geocentric PJ_FWD coo (proj_geocentric_latitude P PJ_FWD coo)])
       else (coo, [])) /\
  (forall op dir arg res,
     In (ev_trans op dir arg res) (trace (pj_inv_finalize P coo)) ->
     left P = PJ_IO_UNITS_ANGULAR /\ right P <> PJ_IO_UNITS_ANGULAR).
Proof.
  split; [exact (finalize_not_angular P coo)|]. split.
  - intros Hx Hl Hr. unfold pj_inv_finalize. now rewrite Hx, Hl, Hr.
  - intros op dir arg res. unfold pj_inv_finalize.
    destruct (xyz_x coo =? HUGE_VAL).
    + intros [Heq | []]. discriminate.
    + destruct (left P); try (intros []).
      destruct (right P); try (intros _; split; [reflexivity | discriminate]).
      unfold finalize_geocentric, geocentric_latitude.
      destruct (geoc P); [intros [Heq | []]; discriminate | intros []].
Qed.

(** X10.  Angular input on a descriptor without axis swap, datum
    sub-operations or geocentric latitude: for a coordinate that passes
    the sentinel and range checks Prepare calls nothing and returns the
    longitude [(lam + from_greenwich) - lam0], passed through [adjlon]
    unless over-range is allowed, the clamped latitude, and the third and
    fourth components as they came. *)
Theorem prepare_plain_angular (P : descriptor) (coo : PJ_COORD) :
  right P = PJ_IO_UNITS_ANGULAR ->
  helmert P = None -> axisswap P = None ->
  hgridshift P = None -> vgridshift P = None -> geoc P = false ->
  (xyz_x coo =? HUGE_VAL) = false ->
  lat_or_lon_exceed_limit coo = false ->
  pj_inv_prepare P coo =
    (mkCoord (if over P then (lp_lam coo + from_greenwich P) - lam0 P
              else adjlon ((lp_lam coo + from_greenwich P) - lam0 P))
             (lp_phi (clamp_latitude coo)) (v2 coo) (v3 coo),
     []).
Proof.
  intros Hr Hh Hax Hhg Hvg Hgeoc Hx Hlim.
  rewrite (prepare_run P coo Hx), (helmert_defaults_none P coo Hh).
  unfold apply_axisswap. rewrite Hax. cbn [is_some]. rewrite bind_ret_l.
  unfold prepare_units, prepare_angular. rewrite Hr, Hlim.
  unfold prepare_geographic. rewrite Hgeoc, bind_ret_l.
  unfold prepare_datum, horizontal_datum_shift. rewrite Hhg, Hh, Hvg.
  cbn [is_some]. rewrite bind_ret_l.
  destruct (clamp_latitude_others coo) as (H0 & H2 & H3).
  unfold central_meridian_distance.
  destruct (over P); cbn [negb set_v0 v0 v1 v2 v3];
    split_if; unfold ret, set_v0; cbn [v0 v1 v2 v3]; now rewrite H0, H2, H3.
Qed.

(** X11.  Cartesian input.  Past the sentinel check, with [c] the
    coordinate after the Helmert defaults and the optional axis swap,
    Prepare scales all three components by [to_meter] (the vertical scale
    [vto_meter] is not used here) and subtracts the offsets; for a
    geocentric descriptor it then applies the cartesian sub-operation in
    its inverse direction. *)
Theorem cartesian_input_scaling (P : descriptor) (coo : PJ_COORD) :
  right P = PJ_IO_UNITS_CARTESIAN ->
  (xyz_x coo =? HUGE_VAL) = false ->
  let swap := apply_axisswap P (helmert_defaults P coo) in
  let c := value swap in
  let scaled := mkCoord (to_meter P * xyz_x c - x0 P)
                        (to_meter P * xyz_y c - y0 P)
                        (to_meter P * xyz_z c - z0 P)
                        (v3 c) in
  pj_inv_prepare P coo =
    if is_geocent P
    then (proj_trans (cart P) PJ_INV scaled,
          trace swap ++ [ev_trans CART PJ_INV scaled (proj_trans (cart P) PJ_INV scaled)])
    else (scaled, trace swap).
Proof.
  intros Hr Hx swap c scaled.
  rewrite (prepare_run P coo Hx). fold swap.
  unfold prepare_units, prepare_cartesian. rewrite Hr.
  unfold bind, trans, ret, value, trace in *.
  cbn [fst snd set_v0 set_v1 set_v2 v0 v1 v2 v3]. fold c. fold scaled.
  destruct (is_geocent P); cbn [fst snd]; [reflexivity | now rewrite app_nil_r].
Qed.

(** X12.  Pass-through input units, output units that are not angular, no
    axis swap and no Helmert sub-operation: the 4D entry point is the 4D
    transform between two sentinel checks, whatever the skip flags.  A
    coordinate whose first component is not the sentinel, and whose image
    under the transform is not either, comes back as that image, the
    transform being the only event. *)
Theorem passthrough_is_the_transform (P : descriptor) (coo : PJ_COORD)
    (f : PJ_COORD -> PJ_COORD) :
  right P = PJ_IO_UNITS_WHATEVER ->
  left P <> PJ_IO_UNITS_ANGULAR ->
  axisswap P = None -> helmert P = None ->
  inv4d P = Some f ->
  (HUGE_VAL =? v0 coo) = false ->
  (HUGE_VAL =? v0 (f coo)) = false ->
  pj_inv4d coo P = (f coo, [ev_inv4d coo (f coo)]).
Proof.
  intros Hr Hl Hax Hh Hf Hx Hfx.
  assert (Hx' : (xyz_x coo =? HUGE_VAL) = false) by now rewrite float_eqb_sym.
  assert (Hpre : entry_prepare P coo = (coo, [])).
  { unfold entry_prepare. destruct (skip_inv_prepare P); cbn [negb]; [reflexivity|].
    rewrite (prepare_run P coo Hx'), (helmert_defaults_none P coo Hh).
    unfold apply_axisswap. rewrite Hax. cbn [is_some]. rewrite bind_ret_l.
    unfold prepare_units. now rewrite Hr. }
  unfold pj_inv4d, entry_body. rewrite Hpre.
  unfold bind at 1. cbn [fst snd app]. rewrite Hx.
  unfold dispatch_inv4d. rewrite Hf.
  unfold bind, call_inv4d, ret. cbn [fst snd app]. rewrite Hfx.
  now rewrite (entry_finalize_not_angular P (f coo) Hfx Hl).
Qed.

(** *** A transform of another dimensionality *)

(** X13.  A 2D call on a descriptor that has a 4D transform only: the
    transform receives the whole prepared coordinate (the input extended
    by zero height and time), its whole result goes through Finalize, and
    the caller gets the first two components of what Finalize returns. *)
Theorem two_d_call_on_4d_transform (P : descriptor) (xy : XY)
    (f : PJ_COORD -> PJ_COORD) :
  inv P = None -> inv3d P = None -> inv4d P = Some f ->
  let pre := entry_prepare P (mkCoord (fst xy) (snd xy) 0 0) in
  let c := value pre in
  (HUGE_VAL =? v0 c) = false ->
  (HUGE_VAL =? v0 (f c)) = false ->
  pj_inv xy P =
    (coo_lp (value (entry_finalize P (f c))),
     trace pre ++ ev_inv4d c (f c) :: trace (entry_finalize P (f c))).
Proof.
  intros H2 H3 H4 pre c Hc Hfc. rewrite pj_inv_body.
  assert (Hdis : dispatch_inv P c = (Some (f c), [ev_inv4d c (f c)])).
  { unfold dispatch_inv. rewrite H2, H3, H4. reflexivity. }
  destruct (entry_body_passes dispatch_inv P (set_xy coo_zero xy) (f c)) as [Hrun _].
  - exact Hc.
  - change (value (dispatch_inv P c) = Some (f c)). now rewrite Hdis.
  - exact Hfc.
  - rewrite Hrun.
    change (dispatch_inv P (value (entry_prepare P (set_xy coo_zero xy))))
      with (dispatch_inv P c).
    rewrite Hdis. reflexivity.
Qed.

(** X14.  A 4D call on a descriptor that has a 2D transform only: the
    transform sees the first two components of the prepared coordinate,
    and the third and fourth go on to Finalize as Prepare left them.  When
    the output units are not angular they come back unchanged. *)
Theorem four_d_call_on_2d_transform (P : descriptor) (coo : PJ_COORD)
    (f : XY -> LP) :
  inv4d P = None -> inv3d P = None -> inv P = Some f ->
  let pre := entry_prepare P coo in
  let c := value pre in
  let r := f (v0 c, v1 c) in
  let out := mkCoord (fst r) (snd r) (v2 c) (v3 c) in
  (HUGE_VAL =? v0 c) = false ->
  (HUGE_VAL =? fst r) = false ->
  pj_inv4d coo P =
    (value (entry_finalize P out),
     trace pre ++ ev_inv (v0 c, v1 c) r :: trace (entry_finalize P out)) /\
  (left P <> PJ_IO_UNITS_ANGULAR -> value (pj_inv4d coo P) = out).
Proof.
  intros H4 H3 H2 pre c r out Hc Hr.
  assert (Hdis : dispatch_inv4d P c = (Some out, [ev_inv (v0 c, v1 c) r])).
  { unfold dispatch_inv4d. rewrite H4, H3, H2. reflexivity. }
  assert (Hrun : pj_inv4d coo P =
                 (value (entry_finalize P out),
                  trace pre ++ ev_inv (v0 c, v1 c) r :: trace (entry_finalize P out))).
  { destruct (entry_body_passes dispatch_inv4d P coo out) as [Hrun _].
    - exact Hc.
    - change (value (dispatch_inv4d P c) = Some out). now rewrite Hdis.
    - exact Hr.
    - unfold pj_inv4d. rewrite Hrun.
      change (dispatch_inv4d P (value (entry_prepare P coo)))
        with (dispatch_inv4d P c).
      rewrite Hdis. reflexivity. }
  split; [exact Hrun|].
  intros Hl. rewrite Hrun. unfold value at 1. cbn [fst].
  now rewrite (entry_finalize_not_angular P out Hr Hl).
Qed.

(** *** The vertical grid shift *)

Lemma ends_with_vertical_shift_bind {A : Type} (m : M A) (k : A -> M PJ_COORD) :
  existsb is_vertical_shift (trace m) = false ->
  ends_with_vertical_shift (k (value m)) ->
  ends_with_vertical_shift (bind m k).
Proof.
  intros Hm [Hno | (t1 & arg & Ht & H1 & Harg)]; unfold value, trace in *.
  - left. unfold bind, trace. cbn [snd]. now rewrite existsb_app, Hm.
  - right. exists (snd m ++ t1), arg. unfold bind, value, trace. cbn [fst snd].
    rewrite Ht, app_assoc. split; [reflexivity|].
    split; [now rewrite existsb_app, Hm | exact Harg].
Qed.

Lemma horizontal_no_vertical (P : descriptor) (coo : PJ_COORD) :
  existsb is_vertical_shift (trace (horizontal_datum_shift P coo)) = false.
Proof.
  unfold horizontal_datum_shift.
  destruct (is_some (hgridshift P)); [reflexivity|].
  destruct (is_some (helmert P)); reflexivity.
Qed.

Lemma prepare_ends_with_vertical_shift (P : descriptor) (coo : PJ_COORD) :
  ends_with_vertical_shift (pj_inv_prepare P coo).
Proof.
  unfold pj_inv_prepare. split_if; [now left|].
  apply ends_with_vertical_shift_bind;
    [unfold apply_axisswap; split_if; reflexivity|].
  unfold prepare_units, prepare_angular, prepare_cartesian, prepare_projected.
  destruct (right P); try (now left).
  - left. split_if; reflexivity.
  - split_if; [now left|].
    unfold prepare_geographic. apply ends_with_vertical_shift_bind.
    + split_if; reflexivity.
    + unfold prepare_datum.
      apply ends_with_vertical_shift_bind; [apply horizontal_no_vertical|].
      destruct (lp_lam (value (horizontal_datum_shift P _)) =? HUGE_VAL) eqn:Hlam;
        [now left|].
      destruct (is_some (vgridshift P)); [|now left].
      right. exists []. eexists. split; [reflexivity|]. split; [reflexivity|].
      exact Hlam.
Qed.

(** X15.  In Prepare the vertical grid shift is the last step: wherever it
    shows in the trace, nothing follows it, it was applied in the inverse
    direction to a coordinate whose longitude is not the sentinel, and what
    it returned is what Prepare returns, unchecked. *)
Theorem prepare_vertical_shift_is_last (P : descriptor) (coo : PJ_COORD) :
  forall pre post dir arg res,
    trace (pj_inv_prepare P coo) = pre ++ ev_trans VGRIDSHIFT dir arg res :: post ->
    post = [] /\ dir = PJ_INV /\
    value (pj_inv_prepare P coo) = res /\
    (lp_lam arg =? HUGE_VAL) = false.
Proof.
  intros pre post dir arg res Heq.
  destruct (prepare_ends_with_vertical_shift P coo)
    as [Hno | (t1 & arg' & Ht & H1 & Harg)].
  - exfalso.
    exact (no_split is_vertical_shift _ pre post (ev_trans VGRIDSHIFT dir arg res)
             Hno eq_refl Heq).
  - rewrite Ht in Heq.
    destruct (unique_split is_vertical_shift t1 [] pre post
                (ev_trans VGRIDSHIFT PJ_INV arg' (value (pj_inv_prepare P coo)))
                (ev_trans VGRIDSHIFT dir arg res) H1 eq_refl eq_refl Heq)
      as (_ & Hev & Hpost).
    injection Hev as -> -> ->. now repeat split.
Qed.

Lemma after_vertical_no_vertical (P : descriptor) (c : PJ_COORD) :
  existsb is_vertical_shift
    (trace (if lp_lam c =? HUGE_VAL then ret c
            else
              h <- horizontal_datum_shift P c ;;
              if lp_lam h =? HUGE_VAL then ret h else finalize_geocentric P h))
  = false.
Proof.
  split_if; [reflexivity|].
  apply no_event_bind; [apply horizontal_no_vertical | intro h].
  split_if; [reflexivity|]. unfold finalize_geocentric. split_if; reflexivity.
Qed.

(** X16.  In Finalize the vertical grid shift is the first sub-operation
    called, in the inverse direction; and when it returns a sentinel
    longitude Finalize returns its result at once: no horizontal datum
    correction and no geocentric latitude conversion follow. *)
Theorem finalize_vertical_shift_first (P : descriptor) (coo : PJ_COORD) :
  forall pre post dir arg res,
    trace (pj_inv_finalize P coo) = pre ++ ev_trans VGRIDSHIFT dir arg res :: post ->
    pre = [] /\ dir = PJ_INV /\
    ((lp_lam res =? HUGE_VAL) = true ->
       post = [] /\ value (pj_inv_finalize P coo) = res).
Proof.
  intros pre post dir arg res.
  unfold pj_inv_finalize. split_if.
  { intros Heq. exfalso. revert Heq. now apply (no_split is_vertical_shift). }
  destruct (left P);
    try (intros Heq; exfalso; revert Heq; now apply (no_split is_vertical_shift)).
  assert (Hgeo : forall c,
             existsb is_vertical_shift (trace (finalize_geocentric P c)) = false)
    by (intros c; unfold finalize_geocentric; split_if; reflexivity).
  destruct (right P);
    try (intros Heq; exfalso; revert Heq;
         apply (no_split is_vertical_shift); [apply Hgeo | reflexivity]).
  all: rewrite finalize_geographic_run; cbv zeta.
  all: set (c2 := if negb (over P) then _ else _).
  all: pose proof (after_vertical_no_vertical P) as Hafter.
  all: destruct (is_some (vgridshift P)).
  all: unfold bind at 1; unfold trans, ret, value, trace in *; cbn [fst snd app].
  all: intros Heq.
  all: try (exfalso; revert Heq; apply (no_split is_vertical_shift);
            [apply Hafter | reflexivity]).
  all: destruct (unique_split is_vertical_shift [] _ pre post _
                   (ev_trans VGRIDSHIFT dir arg res)
                   eq_refl (Hafter _) eq_refl Heq) as (-> & Hev & ->).
  all: injection Hev as -> -> ->.
  all: split; [reflexivity|]; split; [reflexivity|].
  all: intros Hres; unfold bind; cbn [fst snd]; rewrite Hres; split; reflexivity.
Qed.

(** *** The calls a stage makes *)

Lemma forallb_bind {A B : Type} (f : event -> bool) (m : M A) (k : A -> M B) :
  forallb f (trace m) = true ->
  (forall a, forallb f (trace (k a)) = true) ->
  forallb f (trace (bind m k)) = true.
Proof.
  intros Hm Hk. unfold bind, trace in *. cbn [snd].
  rewrite forallb_app, Hm. apply Hk.
Qed.

Ltac allowed :=
  unfold trans, geocentric_latitude, proj_errno_set, bind, ret, trace;
  cbn [fst snd app forallb];
  unfold prepare_event_allowed, finalize_event_allowed;
  repeat match goal with H : _ = _ |- _ => rewrite H end;
  reflexivity.

Lemma horizontal_allowed (f : event -> bool) (P : descriptor) (coo : PJ_COORD) :
  (forall arg res, is_some (hgridshift P) = true ->
     f (ev_trans HGRIDSHIFT PJ_FWD arg res) = true) ->
  (forall arg res, is_some (hgridshift P) = false -> is_some (helmert P) = true ->
     f (ev_trans CART PJ_FWD arg res) = true /\
     f (ev_trans HELMERT PJ_FWD arg res) = true /\
     f (ev_trans CART_WGS84 PJ_INV arg res) = true) ->
  forallb f (trace (horizontal_datum_shift P coo)) = true.
Proof.
  intros Hg Hh. unfold horizontal_datum_shift.
  destruct (is_some (hgridshift P)) eqn:Hhg.
  - unfold trans, trace. cbn [snd forallb]. now rewrite Hg.
  - destruct (is_some (helmert P)) eqn:Hhe; [|reflexivity].
    unfold bind, trans, trace. cbn [fst snd app forallb].
    rewrite (proj1 (Hh _ _ eq_refl eq_refl)).
    rewrite (proj1 (proj2 (Hh _ _ eq_refl eq_refl))).
    rewrite (proj2 (proj2 (Hh _ _ eq_refl eq_refl))).
    reflexivity.
Qed.

(** X17.  Every call Prepare makes is licensed by the descriptor and has
    one direction: the axis swap inverse when configured; for angular
    input the geocentric latitude conversion inverse when [geoc] is set,
    the horizontal grid shift forward when configured or, only when there
    is none and a Helmert sub-operation is configured, the chain local
    cartesian forward, Helmert forward, WGS84 cartesian inverse (the two
    cartesian sub-operations are not tested for presence), and the
    vertical grid shift inverse when configured; for cartesian input of a
    geocentric descriptor the cartesian sub-operation inverse.  It sets no
    error code but the invalid-coordinate one and, for angular input, the
    range-limit one. *)
Theorem prepare_calls_allowed (P : descriptor) (coo : PJ_COORD) :
  forallb (prepare_event_allowed P) (trace (pj_inv_prepare P coo)) = true.
Proof.
  unfold pj_inv_prepare. split_if; [reflexivity|].
  apply forallb_bind.
  - unfold apply_axisswap. destruct (is_some (axisswap P)) eqn:Hax; allowed.
  - intro c. unfold prepare_units, prepare_angular, prepare_cartesian, prepare_projected.
    destruct (right P) eqn:Hr; try reflexivity.
    + destruct (is_geocent P) eqn:Hgc; allowed.
    + split_if; [allowed|].
      unfold prepare_geographic. apply forallb_bind.
      * destruct (geoc P) eqn:Hgeoc; allowed.
      * intro g. unfold prepare_datum. apply forallb_bind.
        -- apply horizontal_allowed; intros; unfold prepare_event_allowed;
             repeat match goal with H : _ = _ |- _ => rewrite H end;
             repeat split.
        -- intro h. split_if; [reflexivity|].
           destruct (is_some (vgridshift P)) eqn:Hvg; allowed.
Qed.

(** X18.  Every call Finalize makes is licensed by the descriptor and has
    one direction.  The datum corrections are made only for angular output
    from non-angular input: the vertical grid shift inverse when
    configured, the horizontal grid shift forward when configured or, only
    when there is none and a Helmert sub-operation is configured, the
    Helmert chain.  The geocentric latitude conversion is made forward, for
    angular output when [geoc] is set.  Finalize sets no error code but the
    invalid-coordinate one. *)
Theorem finalize_calls_allowed (P : descriptor) (coo : PJ_COORD) :
  forallb (finalize_event_allowed P) (trace (pj_inv_finalize P coo)) = true.
Proof.
  unfold pj_inv_finalize. split_if; [reflexivity|].
  destruct (left P) eqn:Hl; try reflexivity.
  assert (Hgeo : forall c,
             forallb (finalize_event_allowed P) (trace (finalize_geocentric P c)) = true).
  { intros c. unfold finalize_geocentric. destruct (geoc P) eqn:Hgeoc; allowed. }
  destruct (right P) eqn:Hr; try apply Hgeo.
  all: apply forallb_bind; [|intro r; split_if; [reflexivity | apply Hgeo]].
  all: unfold finalize_geographic.
  all: apply forallb_bind; [destruct (is_some (vgridshift P)) eqn:Hvg; allowed|].
  all: intro v; split_if; [reflexivity|].
  all: apply forallb_bind; [|intro h; split_if; reflexivity].
  all: apply horizontal_allowed; intros; unfold finalize_event_allowed;
    repeat match goal with H : _ = _ |- _ => rewrite H end;
    repeat split.
Qed.

(** *** The Helmert chain and NaN *)

Lemma exceed_limit_helmert_defaults (P : descriptor) (coo : PJ_COORD) :
  lat_or_lon_exceed_limit (helmert_defaults P coo) = lat_or_lon_exceed_limit coo.
Proof.
  unfold lat_or_lon_exceed_limit.
  destruct (helmert_defaults_xy P coo) as [-> ->]. reflexivity.
Qed.

(** X19.  The Helmert path of Prepare.  Angular input, a Helmert
    sub-operation, no horizontal grid shift, no axis swap and geocentric
    latitude not in use: a coordinate that passes the sentinel and range
    checks is given its Helmert defaults, its latitude is clamped and its
    longitude referred to the central meridian; then the local cartesian
    sub-operation is applied forward, the Helmert sub-operation forward on
    its result, and the WGS84 cartesian sub-operation inverse on the result
    of that.  Prepare returns this last result when its longitude is the
    sentinel or no vertical grid shift is configured, and otherwise the
    result of the vertical grid shift applied to it in the inverse
    direction. *)
Theorem prepare_helmert_chain (P : descriptor) (coo : PJ_COORD) :
  right P = PJ_IO_UNITS_ANGULAR ->
  is_some (helmert P) = true -> hgridshift P = None ->
  axisswap P = None -> geoc P = false ->
  (xyz_x coo =? HUGE_VAL) = false ->
  lat_or_lon_exceed_limit coo = false ->
  let g := central_meridian_distance P (clamp_latitude (helmert_defaults P coo)) in
  let r1 := proj_trans (cart P) PJ_FWD g in
  let r2 := proj_trans (helmert P) PJ_FWD r1 in
  let r3 := proj_trans (cart_wgs84 P) PJ_INV r2 in
  let chain := [ev_trans CART PJ_FWD g r1;
                ev_trans HELMERT PJ_FWD r1 r2;
                ev_trans CART_WGS84 PJ_INV r2 r3] in
  pj_inv_prepare P coo =
    if (lp_lam r3 =? HUGE_VAL) || negb (is_some (vgridshift P))
    then (r3, chain)
    else (proj_trans (vgridshift P) PJ_INV r3,
          chain ++ [ev_trans VGRIDSHIFT PJ_INV r3 (proj_trans (vgridshift P) PJ_INV r3)]).
Proof.
  intros Hr Hh Hhg Hax Hgeoc Hx Hlim g r1 r2 r3 chain.
  rewrite (prepare_run P coo Hx).
  unfold apply_axisswap. rewrite Hax. cbn [is_some]. rewrite bind_ret_l.
  unfold prepare_units, prepare_angular.
  rewrite Hr, exceed_limit_helmert_defaults, Hlim.
  unfold prepare_geographic. rewrite Hgeoc, bind_ret_l. fold g.
  unfold prepare_datum, horizontal_datum_shift. rewrite Hhg, Hh.
  cbn [is_some]. unfold bind, trans, ret. cbn [fst snd app].
  fold r1. fold r2. fold r3. fold chain.
  destruct (lp_lam r3 =? HUGE_VAL); cbn [orb fst snd]; [reflexivity|].
  destruct (is_some (vgridshift P)); cbn [negb fst snd]; reflexivity.
Qed.

(** X20.  The checks of Prepare let NaN through.  With angular input and
    no axis swap, a latitude that is NaN is neither rejected by the range
    check nor clamped, whatever the longitude within its bound: Prepare
    sets no error code and goes on with the NaN latitude. *)
Theorem nan_latitude_not_rejected (P : descriptor) (coo : PJ_COORD) :
  right P = PJ_IO_UNITS_ANGULAR ->
  axisswap P = None ->
  lp_phi coo = nan ->
  (abs (lp_lam coo) <=? 10) = true ->
  lat_or_lon_exceed_limit coo = false /\
  clamp_latitude (helmert_defaults P coo) = helmert_defaults P coo /\
  pj_inv_prepare P coo = prepare_geographic P (helmert_defaults P coo) /\
  existsb is_errno_event (trace (pj_inv_prepare P coo)) = false.
Proof.
  intros Hr Hax Hphi Hlam.
  assert (Hx : (xyz_x coo =? HUGE_VAL) = false)
    by now apply abs_le_10_not_sentinel.
  assert (Hlim : lat_or_lon_exceed_limit coo = false).
  { unfold lat_or_lon_exceed_limit. rewrite Hphi.
    change (PJ_EPS_LAT <? (if nan <? 0 then - nan else nan) - M_HALFPI) with false.
    cbn [orb]. rewrite <- abs_gt_10. now apply leb_not_ltb. }
  assert (Hclamp : clamp_latitude (helmert_defaults P coo) = helmert_defaults P coo).
  { unfold clamp_latitude.
    rewrite (proj2 (helmert_defaults_xy P coo)), Hphi.
    change (M_HALFPI <? nan) with false. cbn iota.
    rewrite (proj2 (helmert_defaults_xy P coo)), Hphi.
    reflexivity. }
  assert (Hrun : pj_inv_prepare P coo = prepare_geographic P (helmert_defaults P coo)).
  { rewrite (prepare_run P coo Hx).
    unfold apply_axisswap. rewrite Hax. cbn [is_some]. rewrite bind_ret_l.
    unfold prepare_units, prepare_angular.
    now rewrite Hr, exceed_limit_helmert_defaults, Hlim, Hclamp. }
  repeat split; try assumption.
  rewrite Hrun. apply geographic_no_errno.
Qed.

(** X21.  Angular output from non-angular input on a descriptor without
    datum sub-operations or geocentric latitude: past its sentinel check
    Finalize calls nothing and returns the longitude
    [lam + from_greenwich + lam0], passed through [adjlon] unless
    over-range is allowed, with the other three components as they came. *)
Theorem finalize_plain_geographic (P : descriptor) (coo : PJ_COORD) :
  left P = PJ_IO_UNITS_ANGULAR ->
  right P <> PJ_IO_UNITS_ANGULAR ->
  helmert P = None -> hgridshift P = None -> vgridshift P = None ->
  geoc P = false ->
  (xyz_x coo =? HUGE_VAL) = false ->
  pj_inv_finalize P coo =
    (mkCoord (if over P then lp_lam coo + from_greenwich P + lam0 P
              else adjlon (lp_lam coo + from_greenwich P + lam0 P))
             (v1 coo) (v2 coo) (v3 coo),
     []).
Proof.
  intros Hl Hr Hh Hhg Hvg Hgeoc Hx.
  assert (Hrun : pj_inv_finalize P coo =
                 (r <- finalize_geographic P coo ;;
                  if snd r then ret (fst r) else finalize_geocentric P (fst r))).
  { unfold pj_inv_finalize. rewrite Hx, Hl. now destruct (right P). }
  rewrite Hrun, finalize_geographic_run. cbv zeta.
  unfold horizontal_datum_shift, finalize_geocentric.
  rewrite Hvg, Hhg, Hh, Hgeoc. cbn [is_some]. rewrite bind_ret_l.
  destruct (over P); cbn [negb set_v0 v0 v1 v2 v3];
    split_if; rewrite ?bind_ret_l; try split_if; reflexivity.
Qed.

End Stages.

(** * The properties on concrete descriptors *)

Section Examples.
Local Existing Instance example_externals.


(** The claim as the specification words it fails at latitude 0, longitude
    0: | |0| - 90 degrees | exceeds epsilon, and yet Prepare accepts the
    coordinate and sets no error. *)
Lemma range_check_counterexample :
  limit_check_as_specified (mkCoord 0 0 0 0) = true /\
  pj_inv_prepare angular_PJ (mkCoord 0 0 0 0) = (mkCoord 0 0 0 0, []).
Proof. split; reflexivity. Qed.

(** A latitude of 2 radians is rejected. *)
Lemma range_check_rejects_witness :
  In (ev_errno PJD_ERR_LAT_OR_LON_EXCEED_LIMIT)
     (trace (pj_inv_prepare angular_PJ (mkCoord 0 2 0 0))) /\
  value (pj_inv_prepare angular_PJ (mkCoord 0 2 0 0)) = proj_coord_error.
Proof.
  destruct (range_check_rejects angular_PJ (mkCoord 0 2 0 0) eq_refl eq_refl)
    as [Hiff Hval].
  split.
  - apply Hiff. reflexivity.
  - apply Hval. reflexivity.
Defined.

(** The double next above pi/2 is within the tolerance: it is accepted and
    clamped to pi/2. *)
Lemma latitude_clamped_witness :
  pj_inv_prepare angular_PJ (mkCoord 0 0x1.921fb54442d19p+0 0 0)
    = (mkCoord 0 M_HALFPI 0 0, []).
Proof.
  destruct (latitude_clamped angular_PJ (mkCoord 0 0x1.921fb54442d19p+0 0 0)
              eq_refl (fun H => eq_refl) eq_refl eq_refl) as [Hrun _].
  rewrite Hrun. reflexivity.
Defined.

(** The tolerance is on the difference |lat| - 90 degrees: the rounded sum
    of [M_HALFPI] and [PJ_EPS_LAT] is a double whose distance to [M_HALFPI]
    exceeds [PJ_EPS_LAT], and it is rejected. *)
Example rounded_limit_rejected :
  (M_HALFPI + PJ_EPS_LAT - M_HALFPI <=? PJ_EPS_LAT) = false /\
  lat_or_lon_exceed_limit (mkCoord 0 (M_HALFPI + PJ_EPS_LAT) 0 0) = true.
Proof. split; reflexivity. Qed.

Lemma example_adjlon_normalizes : adjlon_normalizes.
Proof.
  intros lon _. cbn [adjlon example_externals].
  destruct (in_minus_pi_pi lon) eqn:Hin; [exact Hin | reflexivity].
Defined.

(** A longitude of 1 radian, no offsets: the longitude handed to the datum
    corrections is in (-pi, pi]. *)
Lemma longitude_normalized_witness :
  in_minus_pi_pi
    (lp_lam (set_v0 (mkCoord 1 0 0 0) (adjlon ((1 + 0) - 0)))) = true.
Proof.
  exact (proj2 (proj2 (longitude_normalized angular_PJ (mkCoord 1 0 0 0)
                         example_adjlon_normalizes eq_refl eq_refl eq_refl
                         eq_refl eq_refl))).
Defined.

(** A failing horizontal grid shift ends Prepare: the vertical grid shift
    that the descriptor has is not applied. *)
Lemma sentinel_propagation_witness :
  @nil event = [] /\
  value (pj_inv_prepare failing_grid_PJ (mkCoord 0 0 0 0)) = proj_coord_error.
Proof.
  exact (proj1 (sentinel_propagation failing_grid_PJ (mkCoord 0 0 0 0))
           [] [] HGRIDSHIFT PJ_FWD (mkCoord 0 0 0 0) proj_coord_error
           eq_refl (or_introl eq_refl) eq_refl).
Defined.

Lemma finalize_order_witness :
  pj_inv_finalize geographic_out_PJ (mkCoord 1 0.5 0 0)
    = (mkCoord 1 0.5 0 0,
       [ev_trans VGRIDSHIFT PJ_INV (mkCoord 1 0.5 0 0) (mkCoord 1 0.5 0 0);
        ev_trans HGRIDSHIFT PJ_FWD (mkCoord 1 0.5 0 0) (mkCoord 1 0.5 0 0)]).
Proof.
  rewrite finalize_order.
  - reflexivity.
  - reflexivity.
  - discriminate.
  - reflexivity.
Defined.

(** A coordinate without height and time, on a descriptor with a Helmert
    sub-operation: both are zero after Prepare. *)
Lemma helmert_zero_substitution_witness :
  pj_inv_prepare classic_helmert_PJ (mkCoord 500000 4649776 HUGE_VAL HUGE_VAL)
    = (c <- apply_axisswap classic_helmert_PJ (mkCoord 500000 4649776 0 0) ;;
       prepare_units classic_helmert_PJ c).
Proof.
  exact (proj1 (helmert_zero_substitution classic_helmert_PJ
                  (mkCoord 500000 4649776 HUGE_VAL HUGE_VAL) eq_refl)).
Defined.

Lemma classic_input_scaling_witness :
  pj_inv_prepare classic_helmert_PJ (mkCoord 500000 4649776 10 0)
    = (mkCoord ((1 * 500000 - 0) * 1) ((1 * 4649776 - 0) * 1) (1 * 10 - 0) 0, []).
Proof.
  exact (proj1 (classic_input_scaling classic_helmert_PJ
                  (mkCoord 500000 4649776 10 0) eq_refl) eq_refl).
Defined.

Lemma sentinel_input_never_dispatched_witness :
  value (pj_inv (HUGE_VAL, 0) angular_PJ) = coo_lp proj_coord_error /\
  existsb is_core_event (trace (pj_inv (HUGE_VAL, 0) angular_PJ)) = false.
Proof.
  exact (proj1 (sentinel_input_never_dispatched angular_PJ) (HUGE_VAL, 0) eq_refl).
Defined.

(** The claim fails on angular input: a coordinate with a finite first and
    a sentinel second component is rejected by the range check of Prepare
    and never reaches the transform. *)
Lemma second_component_counterexample :
  is_finite 0 = true /\
  pj_inv (0, HUGE_VAL) angular_PJ
    = ((HUGE_VAL, HUGE_VAL), [ev_errno PJD_ERR_LAT_OR_LON_EXCEED_LIMIT]).
Proof. split; reflexivity. Qed.

(** With projected units the same coordinate goes through the transform
    and Finalize, its second component still the sentinel; with angular
    units it is stopped by the range check. *)
Lemma sentinel_checks_first_component_witness :
  pj_inv4d (mkCoord 1 HUGE_VAL 0 0) projected_PJ
    = (mkCoord 0.5 HUGE_VAL 0 0, [ev_inv (1, HUGE_VAL) (0.5, HUGE_VAL)]) /\
  pj_inv4d (mkCoord 1 HUGE_VAL 0 0) angular_PJ
    = (proj_coord_error, [ev_errno PJD_ERR_LAT_OR_LON_EXCEED_LIMIT]).
Proof.
  split.
  - destruct (sentinel_checks_first_component projected_PJ)
      as (_ & _ & _ & _ & H & _).
    destruct (H (mkCoord 1 HUGE_VAL 0 0) (mkCoord 0.5 HUGE_VAL 0 0)
                eq_refl eq_refl eq_refl) as [Hrun _].
    rewrite Hrun. reflexivity.
  - destruct (sentinel_checks_first_component angular_PJ)
      as (_ & _ & _ & _ & _ & H).
    destruct (H eq_refl eq_refl eq_refl) as (_ & _ & H4).
    exact (H4 (mkCoord 1 HUGE_VAL 0 0) eq_refl eq_refl).
Defined.

(** Under an axis swap the sentinel second component becomes the first,
    and the check that follows Prepare stops the run. *)
Example swapped_sentinel_stops :
  pj_inv4d (mkCoord 1 HUGE_VAL 0 0) swapped_PJ
    = (proj_coord_error,
       [ev_trans AXISSWAP PJ_INV (mkCoord 1 HUGE_VAL 0 0) (mkCoord HUGE_VAL 1 0 0)]).
Proof. reflexivity. Qed.

End Examples.

(** * The further properties on concrete descriptors *)

Section StageExamples.
Local Existing Instance example_externals.

Lemma prepare_invalid_coordinate_witness :
  pj_inv_prepare angular_PJ (mkCoord HUGE_VAL 0 0 0)
    = (proj_coord_error, [ev_errno PJD_ERR_INVALID_X_OR_Y]).
Proof.
  exact (proj2 (prepare_invalid_coordinate angular_PJ (mkCoord HUGE_VAL 0 0 0)) eq_refl).
Defined.

Lemma finalize_invalid_coordinate_witness :
  pj_inv_finalize geographic_out_PJ (mkCoord HUGE_VAL 0 0 0)
    = (proj_coord_error, [ev_errno PJD_ERR_INVALID_X_OR_Y]).
Proof.
  exact (proj2 (proj2 (finalize_invalid_coordinate geographic_out_PJ
                         (mkCoord HUGE_VAL 0 0 0))) eq_refl).
Defined.

(** A latitude of 2 radians: the range-limit code ends Prepare. *)
Lemma prepare_error_is_final_witness :
  value (pj_inv_prepare angular_PJ (mkCoord 0 2 0 0)) = proj_coord_error /\
  proj_errno (trace (pj_inv_prepare angular_PJ (mkCoord 0 2 0 0)))
    = Some PJD_ERR_LAT_OR_LON_EXCEED_LIMIT.
Proof.
  destruct (prepare_error_is_final angular_PJ (mkCoord 0 2 0 0)
              PJD_ERR_LAT_OR_LON_EXCEED_LIMIT (or_introl eq_refl))
    as (_ & Hval & Herr & _).
  now split.
Defined.

(** No transform at all: [EINVAL] ends the 4D entry point. *)
Lemma entry_error_is_final_witness :
  value (pj_inv4d (mkCoord 1 2 3 4) no_transform_PJ) = proj_coord_error /\
  proj_errno (trace (pj_inv4d (mkCoord 1 2 3 4) no_transform_PJ)) = Some EINVAL.
Proof.
  destruct (entry_error_is_final no_transform_PJ EINVAL) as (_ & _ & H).
  destruct (H (mkCoord 1 2 3 4) (or_introl eq_refl)) as (Hval & Herr & _).
  now split.
Defined.

Lemma invalid_only_from_prepare_witness :
  In (ev_errno PJD_ERR_INVALID_X_OR_Y)
     (trace (pj_inv4d (mkCoord HUGE_VAL 0 0 0) projected_PJ)).
Proof.
  destruct (invalid_only_from_prepare projected_PJ) as (_ & _ & H).
  apply H. split; reflexivity.
Defined.

Lemma at_most_one_transform_call_witness :
  length (filter is_core_event (trace (pj_inv4d (mkCoord 1 2 0 0) projected_PJ))) = 1%nat /\
  existsb is_errno_event (trace (pj_inv4d (mkCoord 1 2 0 0) projected_PJ)) = false.
Proof.
  destruct (at_most_one_transform_call projected_PJ) as (_ & _ & H).
  destruct (H (mkCoord 1 2 0 0)) as [_ Hone]. exact (Hone eq_refl).
Defined.

(** A horizontal grid shift that fails in Prepare, and a transform that
    fails: the entry point returns the error coordinate both times. *)
Lemma failed_stage_stops_entry_witness :
  value (pj_inv4d (mkCoord 0 0 0 0) failing_grid_PJ) = proj_coord_error /\
  pj_inv4d (mkCoord 1 2 3 4) failing_transform_PJ
    = (proj_coord_error, [ev_inv (1, 2) (HUGE_VAL, HUGE_VAL)]).
Proof.
  split.
  - destruct (failed_stage_stops_entry failing_grid_PJ) as (_ & _ & H).
    destruct (H (mkCoord 0 0 0 0)) as [Hpre _]. now rewrite (Hpre eq_refl).
  - destruct (failed_stage_stops_entry failing_transform_PJ) as (_ & _ & H).
    destruct (H (mkCoord 1 2 3 4)) as [_ Hdis].
    exact (Hdis (mkCoord HUGE_VAL HUGE_VAL 3 4) eq_refl eq_refl eq_refl).
Defined.

Lemma entry_points_agree_witness :
  pj_inv (1, 2) projected_PJ =
    (coo_lp (value (pj_inv4d (mkCoord 1 2 0 0) projected_PJ)),
     trace (pj_inv4d (mkCoord 1 2 0 0) projected_PJ)).
Proof.
  exact (proj2 (entry_points_agree projected_PJ)
           (or_intror (or_intror (conj eq_refl eq_refl))) (1, 2)).
Defined.

Lemma finalize_without_datum_witness :
  pj_inv_finalize projected_PJ (mkCoord 1 2 3 4) = (mkCoord 1 2 3 4, []).
Proof.
  apply (proj1 (finalize_without_datum projected_PJ (mkCoord 1 2 3 4))).
  - reflexivity.
  - discriminate.
Defined.

(** Longitude 1 and a latitude just above 90 degrees. *)
Lemma prepare_plain_angular_witness :
  pj_inv_prepare angular_PJ (mkCoord 1 0x1.921fb54442d19p+0 3 4)
    = (mkCoord 1 M_HALFPI 3 4, []).
Proof.
  rewrite (prepare_plain_angular angular_PJ (mkCoord 1 0x1.921fb54442d19p+0 3 4)
             eq_refl eq_refl eq_refl eq_refl eq_refl eq_refl eq_refl eq_refl).
  reflexivity.
Defined.

Lemma cartesian_input_scaling_witness :
  pj_inv_prepare cartesian_PJ (mkCoord 1 2 3 4) = (mkCoord 1 2 3 4, []).
Proof.
  rewrite (cartesian_input_scaling cartesian_PJ (mkCoord 1 2 3 4) eq_refl eq_refl).
  reflexivity.
Defined.

Lemma passthrough_is_the_transform_witness :
  pj_inv4d (mkCoord 1 2 3 4) only_4d_PJ
    = (mkCoord 1 2 3 4, [ev_inv4d (mkCoord 1 2 3 4) (mkCoord 1 2 3 4)]).
Proof.
  apply (passthrough_is_the_transform only_4d_PJ (mkCoord 1 2 3 4) same_4d);
    try reflexivity.
  discriminate.
Defined.

Lemma two_d_call_on_4d_transform_witness :
  pj_inv (1, 2) only_4d_PJ
    = ((1, 2), [ev_inv4d (mkCoord 1 2 0 0) (mkCoord 1 2 0 0)]).
Proof.
  rewrite (two_d_call_on_4d_transform only_4d_PJ (1, 2) same_4d
             eq_refl eq_refl eq_refl eq_refl eq_refl).
  reflexivity.
Defined.

(** Height 3 and time 4 come back from a 2D transform as they went in. *)
Lemma four_d_call_on_2d_transform_witness :
  value (pj_inv4d (mkCoord 1 2 3 4) projected_PJ) = mkCoord 0.5 1 3 4.
Proof.
  apply (proj2 (four_d_call_on_2d_transform projected_PJ (mkCoord 1 2 3 4) half_2d
                  eq_refl eq_refl eq_refl eq_refl eq_refl)).
  discriminate.
Defined.

Lemma prepare_vertical_shift_is_last_witness :
  @nil event = [] /\ PJ_INV = PJ_INV /\
  value (pj_inv_prepare vertical_PJ (mkCoord 1 0.5 3 4)) = mkCoord 1 0.5 4 4 /\
  (1 =? HUGE_VAL) = false.
Proof.
  exact (prepare_vertical_shift_is_last vertical_PJ (mkCoord 1 0.5 3 4)
           [] [] PJ_INV (mkCoord 1 0.5 3 4) (mkCoord 1 0.5 4 4) eq_refl).
Defined.

(** A vertical grid shift that fails ends Finalize: the horizontal grid
    shift that the descriptor has is not applied. *)
Lemma finalize_vertical_shift_first_witness :
  @nil event = [] /\
  value (pj_inv_finalize failing_vertical_PJ (mkCoord 1 0.5 3 4)) = proj_coord_error.
Proof.
  destruct (finalize_vertical_shift_first failing_vertical_PJ (mkCoord 1 0.5 3 4)
              [] [] PJ_INV (mkCoord 1 0.5 3 4) proj_coord_error eq_refl)
    as (_ & _ & Hstop).
  exact (Hstop eq_refl).
Defined.

(** Without height and time: the Helmert step works on height 0. *)
Lemma prepare_helmert_chain_witness :
  pj_inv_prepare helmert_PJ (mkCoord 1 0.5 HUGE_VAL HUGE_VAL)
    = (mkCoord 1 0.5 1 0,
       [ev_trans CART PJ_FWD (mkCoord 1 0.5 0 0) (mkCoord 1 0.5 0 0);
        ev_trans HELMERT PJ_FWD (mkCoord 1 0.5 0 0) (mkCoord 1 0.5 1 0);
        ev_trans CART_WGS84 PJ_INV (mkCoord 1 0.5 1 0) (mkCoord 1 0.5 1 0)]).
Proof.
  rewrite (prepare_helmert_chain helmert_PJ (mkCoord 1 0.5 HUGE_VAL HUGE_VAL)
             eq_refl eq_refl eq_refl eq_refl eq_refl eq_refl eq_refl).
  reflexivity.
Defined.

Lemma nan_latitude_not_rejected_witness :
  pj_inv_prepare angular_PJ (mkCoord 1 nan 3 4) = (mkCoord 1 nan 3 4, []).
Proof.
  destruct (nan_latitude_not_rejected angular_PJ (mkCoord 1 nan 3 4)
              eq_refl eq_refl eq_refl eq_refl) as (_ & _ & Hrun & _).
  rewrite Hrun. reflexivity.
Defined.

Lemma finalize_plain_geographic_witness :
  pj_inv_finalize
    (example_PJ PJ_IO_UNITS_ANGULAR PJ_IO_UNITS_PROJECTED
       None None None None (Some half_2d) None None)
    (mkCoord 1 0.5 3 4)
  = (mkCoord 1 0.5 3 4, []).
Proof.
  rewrite finalize_plain_geographic; try reflexivity.
  discriminate.
Defined.

End StageExamples.
